(** * JNI handles and ZGC root iterators

    A shallow embedding of

    - [src/hotspot/share/runtime/jniHandles.hpp]: the tag arithmetic on
      [jobject] values and the inline resolve / destroy functions;
    - [src/hotspot/share/gc/z/zRootsIterator.cpp]: the serial and parallel
      claim guards and the strong / weak / concurrent-weak / thread root
      iterators built from them.

    The handle functions are modelled for an assert-enabled build: a failed
    [assert] is an outcome of its own, distinct from a normal return.
    [ZStatTimer] objects only measure time and are left out. *)

From stdpp Require Import base option list gmap strings relations.
From Stdlib Require Import ZArith Lia.

#[local] Open Scope Z_scope.

(* ===================================================================== *)
(** ** Outcomes of code that may trip an assertion *)
(* ===================================================================== *)

Inductive outcome (A : Type) : Type :=
  | Ok (a : A)
  | AssertionFailure (msg : string)
  | InvalidAccess (addr : Z).
Arguments Ok {A} a.
Arguments AssertionFailure {A} msg.
Arguments InvalidAccess {A} addr.

Definition obind {A B} (m : outcome A) (k : A → outcome B) : outcome B :=
  match m with
  | Ok a => k a
  | AssertionFailure msg => AssertionFailure msg
  | InvalidAccess a => InvalidAccess a
  end.

#[global] Instance outcome_ret : MRet outcome := λ A a, Ok a.
#[global] Instance outcome_bind : MBind outcome := λ A B k m, obind m k.

(** [assert(cond, msg)] of utilities/debug.hpp. *)
Definition assert (cond : bool) (msg : string) : outcome unit :=
  if cond then Ok () else AssertionFailure msg.

Definition returns_normally {A} (o : outcome A) : bool :=
  match o with Ok _ => true | _ => false end.

(* ===================================================================== *)
(** ** jniHandles.hpp *)
(* ===================================================================== *)

Module JNIHandles.

(** An [oop] is the address of a managed object, [jobject] an address-sized
    handle value ([uintptr_t] once reinterpreted). *)
Definition oop := Z.
Definition jobject := Z.
Definition NULL : Z := 0.

Definition uint_wrap (z : Z) : Z := z mod 2 ^ 32.
Definition uintptr_wrap (z : Z) : Z := z mod 2 ^ 64.

Definition weak_tag_size : Z := 1.
(** [(1u << weak_tag_size)], an [unsigned int] widened to [uintptr_t]. *)
Definition weak_tag_alignment : Z := uint_wrap (Z.shiftl 1 weak_tag_size).
Definition weak_tag_mask : Z := uintptr_wrap (weak_tag_alignment - 1).
Definition weak_tag_value : Z := 1.

(** The part of the VM the inline functions look at: the memory holding
    handle slots (block slots and OopStorage slots alike), and whether the
    calling thread is in native state, which is what
    [current_thread_in_native()] (declared in the header, defined
    elsewhere) reports. *)
Record vm := VM {
  slots : gmap Z oop;
  thread_in_native : bool;
}.

Definition current_thread_in_native (s : vm) : bool := thread_in_native s.

Definition load (s : vm) (addr : Z) : outcome oop :=
  match slots s !! addr with
  | Some v => Ok v
  | None => InvalidAccess addr
  end.

Definition store (s : vm) (addr : Z) (v : oop) : outcome vm :=
  match slots s !! addr with
  | Some _ => Ok (VM (<[addr := v]> (slots s)) (thread_in_native s))
  | None => InvalidAccess addr
  end.

Definition is_jweak (handle : jobject) : bool :=
  negb (Z.land handle weak_tag_mask =? 0).

(** [jobject_ref] yields a reference to the slot; the model returns the
    slot's address and leaves the access to [load] / [store]. *)
Definition jobject_ref (handle : jobject) : outcome Z :=
  assert (negb (is_jweak handle)) "precondition";;
  Ok handle.

Definition jweak_ref_addr (handle : jobject) : outcome Z :=
  assert (is_jweak handle) "precondition";;
  Ok (handle - weak_tag_value).

Definition jweak_ref (handle : jobject) : outcome Z :=
  jweak_ref_addr handle.

(** Modelled from the spec: [resolve_jweak] is declared in the header and
    defined in jniHandles.cpp, outside the two files embedded here.
    The spec has weak handles resolved through the weak storage, the
    result being null once the collector has cleared the referent: the
    model reads the weak slot, in which a cleared referent is null. *)
Definition resolve_jweak (s : vm) (handle : jobject) : outcome oop :=
  addr ← jweak_ref handle;
  load s addr.

Definition resolve_impl (external_guard : bool) (s : vm) (handle : jobject)
  : outcome oop :=
  assert (negb (handle =? NULL)) "precondition";;
  assert (negb (current_thread_in_native s)) "must not be in native";;
  if is_jweak handle then
    resolve_jweak s handle
  else
    addr ← jobject_ref handle;
    result ← load s addr;
    assert (external_guard || negb (result =? NULL)) "Invalid JNI handle";;
    Ok result.

Definition resolve (s : vm) (handle : jobject) : outcome oop :=
  if negb (handle =? NULL) then resolve_impl false s handle else Ok NULL.

Definition resolve_external_guard (s : vm) (handle : jobject) : outcome oop :=
  if negb (handle =? NULL) then resolve_impl true s handle else Ok NULL.

Definition resolve_non_null (s : vm) (handle : jobject) : outcome oop :=
  assert (negb (handle =? NULL)) "JNI handle should not be null";;
  result ← resolve_impl false s handle;
  assert (negb (result =? NULL)) "NULL read from jni handle";;
  Ok result.

Definition destroy_local (s : vm) (handle : jobject) : outcome vm :=
  if negb (handle =? NULL) then
    assert (negb (is_jweak handle)) "Invalid JNI local handle";;
    addr ← jobject_ref handle;
    store s addr NULL
  else Ok s.

End JNIHandles.

(* ===================================================================== *)
(** ** zRootsIterator.cpp: closures, collaborators, configuration *)
(* ===================================================================== *)

(** An [OopClosure*] is the address of a visitor object; the iterators only
    pass it on. *)
Definition OopClosure := Z.

(** A [BoolObjectClosure] answers whether an object is alive. *)
Record BoolObjectClosure := { do_object_b : JNIHandles.oop → bool }.

(** Modelled from the spec: [AlwaysTrueClosure] is declared outside the
    two files embedded here; it is the always-true liveness predicate,
    treating every entry as live. *)
Definition AlwaysTrueClosure : BoolObjectClosure :=
  {| do_object_b := λ _, true |}.

(** The two switches of z_globals.hpp read by the iterators. *)
Record ZGlobals := {
  ZWeakRoots : bool;
  ZConcurrentJNIWeakGlobalHandles : bool;
}.

(** Calls into the collaborators, with their actual arguments.  The two
    overloads of [JNIHandles::weak_oops_do] are kept apart;
    [ClassLoaderDataGraph::cld_do] receives the [CLDToOopClosure] wrapped
    around the visitor; the [int] out-parameters of the table unlinking
    calls are locals that are never read. *)
Inductive collaborator_call :=
  | Universe_oops_do (cl : OopClosure)
  | JNIHandles_oops_do (cl : OopClosure)
  | JNIHandles_weak_oops_do_1 (cl : OopClosure)
  | JNIHandles_weak_oops_do_2 (is_alive : BoolObjectClosure) (cl : OopClosure)
  | ObjectSynchronizer_oops_do (cl : OopClosure)
  | Management_oops_do (cl : OopClosure)
  | JvmtiExport_oops_do (cl : OopClosure)
  | JvmtiExport_weak_oops_do (is_alive : BoolObjectClosure) (cl : OopClosure)
  | TRACE_WEAK_OOPS_DO (is_alive : BoolObjectClosure) (cl : OopClosure)
  | SystemDictionary_oops_do (cl : OopClosure)
  | ClassLoaderDataGraph_cld_do (CLDToOopClosure_of : OopClosure)
  | Threads_possibly_parallel_oops_do
      (is_par : bool) (cl : OopClosure) (cf : option Z)
  | ZNMethodTable_oops_do (cl : OopClosure)
  | StringTable_possibly_parallel_oops_do (cl : OopClosure)
  | SymbolTable_possibly_parallel_unlink
  | StringTable_possibly_parallel_unlink_or_oops_do
      (is_alive : BoolObjectClosure) (cl : OopClosure).

(** The arguments a guard's entry point is called with. *)
Inductive guard_args :=
  | oops_do_args (cl : OopClosure)
  | unlink_or_oops_do_args (is_alive : BoolObjectClosure) (cl : OopClosure).

(** Which template a guard member instantiates.  The members are declared in
    zRootsIterator.hpp, so the choice is a parameter of the iterators. *)
Inductive guard_kind := Serial | Parallel.

(* ===================================================================== *)
(** ** The claim guards, one call run to completion *)
(* ===================================================================== *)

Section Guards.
Context {Member : Type} `{EqDecision Member}.

(** One iterator instance while a thread runs through it: the flag of
    each guard member ([_claimed] or [_completed]), the guard entry points
    called so far (ghost) and the collaborator calls made so far. *)
Record iterator := Iterator {
  flag : Member → bool;
  entered : list (Member * guard_args);
  called : list collaborator_call;
}.

Definition M (A : Type) : Type := iterator → A * iterator.

#[global] Instance M_ret : MRet M := λ A a it, (a, it).
#[global] Instance M_bind : MBind M :=
  λ A B k m it, let '(a, it') := m it in k a it'.

Definition exec {A} (m : M A) (it : iterator) : iterator := (m it).2.

Definition read_flag (g : Member) : M bool := λ it, (flag it g, it).

Definition set_flag (g : Member) (b : bool) (it : iterator) : iterator :=
  Iterator (λ g', if decide (g' = g) then b else flag it g')
           (entered it) (called it).

Definition write_flag (g : Member) (b : bool) : M unit :=
  λ it, ((), set_flag g b it).

(** [Atomic::cmpxchg(exchange_value, dest, compare_value)]: returns the
    value found at [dest], replaced by [exchange_value] when it equals
    [compare_value]. *)
Definition Atomic_cmpxchg (exchange_value : bool) (dest : Member)
    (compare_value : bool) : M bool :=
  λ it, let found := flag it dest in
        (found, if bool_decide (found = compare_value)
                then set_flag dest exchange_value it else it).

Definition enter (g : Member) (a : guard_args) : M unit :=
  λ it, ((), Iterator (flag it) (entered it ++ [(g, a)]) (called it)).

Definition invoke (c : collaborator_call) : M unit :=
  λ it, ((), Iterator (flag it) (entered it) (called it ++ [c])).

Definition ZSerialOopsDo_oops_do (_claimed : Member)
    (F : OopClosure → M unit) (cl : OopClosure) : M unit :=
  enter _claimed (oops_do_args cl);;
  claimed ← read_flag _claimed;
  if negb claimed then
    found ← Atomic_cmpxchg true _claimed false;
    if bool_decide (found = false) then F cl else mret ()
  else mret ().

Definition ZParallelOopsDo_oops_do (_completed : Member)
    (F : OopClosure → M unit) (cl : OopClosure) : M unit :=
  enter _completed (oops_do_args cl);;
  completed ← read_flag _completed;
  if negb completed then
    F cl;;
    completed ← read_flag _completed;
    if negb completed then write_flag _completed true else mret ()
  else mret ().

Definition ZSerialUnlinkOrOopsDo_unlink_or_oops_do (_claimed : Member)
    (F : BoolObjectClosure → OopClosure → M unit)
    (is_alive : BoolObjectClosure) (cl : OopClosure) : M unit :=
  enter _claimed (unlink_or_oops_do_args is_alive cl);;
  claimed ← read_flag _claimed;
  if negb claimed then
    found ← Atomic_cmpxchg true _claimed false;
    if bool_decide (found = false) then F is_alive cl else mret ()
  else mret ().

Definition ZParallelUnlinkOrOopsDo_unlink_or_oops_do (_completed : Member)
    (F : BoolObjectClosure → OopClosure → M unit)
    (is_alive : BoolObjectClosure) (cl : OopClosure) : M unit :=
  enter _completed (unlink_or_oops_do_args is_alive cl);;
  completed ← read_flag _completed;
  if negb completed then
    F is_alive cl;;
    completed ← read_flag _completed;
    if negb completed then write_flag _completed true else mret ()
  else mret ().

(** A guard member of either template. *)
Definition guard_oops_do (k : guard_kind) :=
  match k with
  | Serial => ZSerialOopsDo_oops_do
  | Parallel => ZParallelOopsDo_oops_do
  end.

Definition guard_unlink_or_oops_do (k : guard_kind) :=
  match k with
  | Serial => ZSerialUnlinkOrOopsDo_unlink_or_oops_do
  | Parallel => ZParallelUnlinkOrOopsDo_unlink_or_oops_do
  end.

(** A freshly constructed iterator: every guard starts with its flag
    [false]. *)
Definition fresh : iterator := Iterator (λ _, false) [] [].

(** What one run of [m] adds to the two logs. *)
Definition dispatched_by {A} (m : M A) (it : iterator)
  : list (Member * guard_args) :=
  drop (length (entered it)) (entered (exec m it)).

Definition called_by {A} (m : M A) (it : iterator)
  : list collaborator_call :=
  drop (length (called it)) (called (exec m it)).

(** A traversal function only makes collaborator calls: it leaves the
    flags and the entry log alone. *)
Definition makes_calls (m : M unit) (cs : list collaborator_call)
  : Prop :=
  ∀ it, exec m it = Iterator (flag it) (entered it) (called it ++ cs).

(** The state after a guarded call, whichever the template. *)
Definition guarded (g : Member) (a : guard_args)
    (cs : list collaborator_call) (it : iterator) : iterator :=
  Iterator (if flag it g then flag it else flag (set_flag g true it))
           (entered it ++ [(g, a)])
           (called it ++ if flag it g then [] else cs).

(** A sequence of guarded calls with the same arguments. *)
Definition guarded_all (a : guard_args)
    (cs : Member → list collaborator_call) (gs : list Member)
    (it : iterator) : iterator :=
  foldl (λ it' g, guarded g a (cs g) it') it gs.

End Guards.

Arguments iterator Member : clear implicits.
Arguments M Member A : clear implicits.

(* ===================================================================== *)
(** ** ZRootsIterator *)
(* ===================================================================== *)

Module ZRootsIterator.

Inductive member :=
  | _universe | _jni_handles | _jni_weak_handles | _object_synchronizer
  | _management | _jvmti_export | _jvmti_weak_export | _trace
  | _system_dictionary | _class_loader_data_graph | _threads
  | _code_cache | _string_table.

#[global] Instance member_eq_dec : EqDecision member.
Proof. solve_decision. Defined.

Definition do_universe (cl : OopClosure) : M member unit :=
  invoke (Universe_oops_do cl).
Definition do_jni_handles (cl : OopClosure) : M member unit :=
  invoke (JNIHandles_oops_do cl).
Definition do_jni_weak_handles (cl : OopClosure) : M member unit :=
  invoke (JNIHandles_weak_oops_do_1 cl).
Definition do_object_synchronizer (cl : OopClosure) : M member unit :=
  invoke (ObjectSynchronizer_oops_do cl).
Definition do_management (cl : OopClosure) : M member unit :=
  invoke (Management_oops_do cl).
Definition do_jvmti_export (cl : OopClosure) : M member unit :=
  invoke (JvmtiExport_oops_do cl).
Definition do_jvmti_weak_export (cl : OopClosure) : M member unit :=
  let always_alive := AlwaysTrueClosure in
  invoke (JvmtiExport_weak_oops_do always_alive cl).
Definition do_trace (cl : OopClosure) : M member unit :=
  let always_alive := AlwaysTrueClosure in
  invoke (TRACE_WEAK_OOPS_DO always_alive cl).
Definition do_system_dictionary (cl : OopClosure) : M member unit :=
  invoke (SystemDictionary_oops_do cl).
Definition do_class_loader_data_graph (cl : OopClosure) : M member unit :=
  let cld_cl := cl in
  invoke (ClassLoaderDataGraph_cld_do cld_cl).
Definition do_threads (cl : OopClosure) : M member unit :=
  invoke (Threads_possibly_parallel_oops_do true cl None).
Definition do_code_cache (cl : OopClosure) : M member unit :=
  invoke (ZNMethodTable_oops_do cl).
Definition do_string_table (cl : OopClosure) : M member unit :=
  invoke (StringTable_possibly_parallel_oops_do cl).

(** Modelled from the spec: the member declarations of
    zRootsIterator.hpp, which give each guard member its traversal
    function as a template argument, lie outside the two files embedded
    here; every root group is guarded by the member of its own name. *)
Definition traversal (g : member) : OopClosure → M member unit :=
  match g with
  | _universe => do_universe
  | _jni_handles => do_jni_handles
  | _jni_weak_handles => do_jni_weak_handles
  | _object_synchronizer => do_object_synchronizer
  | _management => do_management
  | _jvmti_export => do_jvmti_export
  | _jvmti_weak_export => do_jvmti_weak_export
  | _trace => do_trace
  | _system_dictionary => do_system_dictionary
  | _class_loader_data_graph => do_class_loader_data_graph
  | _threads => do_threads
  | _code_cache => do_code_cache
  | _string_table => do_string_table
  end.

Section OopsDo.
Variable globals : ZGlobals.
Variable kind : member → guard_kind.

(** [g.oops_do(cl)] for a guard member [g]. *)
Definition member_oops_do (g : member) : OopClosure → M member unit :=
  guard_oops_do (kind g) g (traversal g).

Definition oops_do (cl : OopClosure) (visit_jvmti_weak_export : bool)
  : M member unit :=
  member_oops_do _universe cl;;
  member_oops_do _jni_handles cl;;
  member_oops_do _object_synchronizer cl;;
  member_oops_do _management cl;;
  member_oops_do _jvmti_export cl;;
  member_oops_do _system_dictionary cl;;
  member_oops_do _class_loader_data_graph cl;;
  member_oops_do _threads cl;;
  member_oops_do _code_cache cl;;
  if negb (ZWeakRoots globals) then
    member_oops_do _jni_weak_handles cl;;
    member_oops_do _jvmti_weak_export cl;;
    member_oops_do _trace cl;;
    member_oops_do _string_table cl
  else
    if visit_jvmti_weak_export then
      member_oops_do _jvmti_weak_export cl
    else mret ().
End OopsDo.

(** The root groups as the specification lists them. *)
Definition strong_groups : list member :=
  [_universe; _jni_handles; _object_synchronizer; _management;
   _jvmti_export; _system_dictionary; _class_loader_data_graph;
   _threads; _code_cache].

Definition weak_groups : list member :=
  [_jni_weak_handles; _jvmti_weak_export; _trace; _string_table].

(** The members [oops_do] goes through, in order. *)
Definition dispatch_list (globals : ZGlobals)
    (visit_jvmti_weak_export : bool) : list member :=
  strong_groups ++
  if negb (ZWeakRoots globals) then weak_groups
  else if visit_jvmti_weak_export then [_jvmti_weak_export] else [].

(** The collaborator calls the traversal function of [g] makes. *)
Definition calls_of (g : member) (cl : OopClosure)
  : list collaborator_call :=
  called (exec (traversal g cl) fresh).

End ZRootsIterator.

(* ===================================================================== *)
(** ** ZWeakRootsIterator *)
(* ===================================================================== *)

Module ZWeakRootsIterator.

Inductive member :=
  | _jni_weak_handles | _jvmti_weak_export | _trace
  | _symbol_table | _string_table.

#[global] Instance member_eq_dec : EqDecision member.
Proof. solve_decision. Defined.

Definition do_jni_weak_handles (is_alive : BoolObjectClosure)
    (cl : OopClosure) : M member unit :=
  invoke (JNIHandles_weak_oops_do_2 is_alive cl).
Definition do_jvmti_weak_export (is_alive : BoolObjectClosure)
    (cl : OopClosure) : M member unit :=
  invoke (JvmtiExport_weak_oops_do is_alive cl).
Definition do_trace (is_alive : BoolObjectClosure)
    (cl : OopClosure) : M member unit :=
  invoke (TRACE_WEAK_OOPS_DO is_alive cl).
(** Neither argument is used: symbols are unlinked by the table itself. *)
Definition do_symbol_table (is_alive : BoolObjectClosure)
    (cl : OopClosure) : M member unit :=
  invoke SymbolTable_possibly_parallel_unlink.
Definition do_string_table (is_alive : BoolObjectClosure)
    (cl : OopClosure) : M member unit :=
  invoke (StringTable_possibly_parallel_unlink_or_oops_do is_alive cl).

(** Modelled from the spec: as for [ZRootsIterator], the member
    declarations lie in zRootsIterator.hpp; every weak root group is
    guarded by the member of its own name. *)
Definition traversal (g : member)
  : BoolObjectClosure → OopClosure → M member unit :=
  match g with
  | _jni_weak_handles => do_jni_weak_handles
  | _jvmti_weak_export => do_jvmti_weak_export
  | _trace => do_trace
  | _symbol_table => do_symbol_table
  | _string_table => do_string_table
  end.

Section UnlinkOrOopsDo.
Variable globals : ZGlobals.
Variable kind : member → guard_kind.

(** [g.unlink_or_oops_do(is_alive, cl)] for a guard member [g]. *)
Definition member_unlink_or_oops_do (g : member)
  : BoolObjectClosure → OopClosure → M member unit :=
  guard_unlink_or_oops_do (kind g) g (traversal g).

Definition unlink_or_oops_do (is_alive : BoolObjectClosure)
    (cl : OopClosure) : M member unit :=
  member_unlink_or_oops_do _symbol_table is_alive cl;;
  if ZWeakRoots globals then
    (if negb (ZConcurrentJNIWeakGlobalHandles globals) then
       member_unlink_or_oops_do _jni_weak_handles is_alive cl
     else mret ());;
    member_unlink_or_oops_do _jvmti_weak_export is_alive cl;;
    member_unlink_or_oops_do _trace is_alive cl;;
    member_unlink_or_oops_do _string_table is_alive cl
  else mret ().

Definition oops_do (cl : OopClosure) : M member unit :=
  let always_alive := AlwaysTrueClosure in
  unlink_or_oops_do always_alive cl.
End UnlinkOrOopsDo.

(** The members [unlink_or_oops_do] goes through, in order. *)
Definition weak_dispatch_list (globals : ZGlobals) : list member :=
  _symbol_table ::
  if ZWeakRoots globals then
    (if negb (ZConcurrentJNIWeakGlobalHandles globals)
     then [_jni_weak_handles] else []) ++
    [_jvmti_weak_export; _trace; _string_table]
  else [].

(** The collaborator calls the traversal function of [g] makes. *)
Definition calls_of (g : member) (is_alive : BoolObjectClosure)
    (cl : OopClosure) : list collaborator_call :=
  called (exec (traversal g is_alive cl) fresh).

End ZWeakRootsIterator.

(* ===================================================================== *)
(** ** The claim guards under interleaving *)
(* ===================================================================== *)

(** Several threads call the entry point of one guard of one iterator
    instance.  Every access to the guard's flag is one atomic step and the
    steps of the threads interleave in any order (sequential consistency).
    [Arg] is what a call passes to the traversal function: the visitor for
    [oops_do], the liveness predicate and the visitor for
    [unlink_or_oops_do]. *)

Section Interleaving.
Context {Arg : Type}.

(** The guard's flag and, as ghost state, the invocations of the
    traversal function so far: which thread, with which arguments. *)
Record shared := Shared {
  the_flag : bool;
  executions : list (nat * Arg);
}.

Record config (PC : Type) := Config {
  mem : shared;
  pool : list (Arg * PC);
}.
Arguments Config {PC} mem pool.
Arguments mem {PC} c.
Arguments pool {PC} c.

Section Scheduler.
Context {PC : Type}.
(** One step of thread [tid], [None] once its call has returned. *)
Variable thread_step : nat → Arg → PC → shared → option (PC * shared).

Definition sched_step (tid : nat) (c : config PC) : option (config PC) :=
  match pool c !! tid with
  | Some (a, pc) =>
      match thread_step tid a pc (mem c) with
      | Some (pc', m') => Some (Config m' (<[tid := (a, pc')]> (pool c)))
      | None => None
      end
  | None => None
  end.

Definition interleave (c c' : config PC) : Prop :=
  ∃ tid, sched_step tid c = Some c'.

(** Running a schedule; a thread that cannot step is passed over. *)
Fixpoint run (schedule : list nat) (c : config PC) : config PC :=
  match schedule with
  | [] => c
  | tid :: rest => run rest (default c (sched_step tid c))
  end.

Fixpoint enabled (schedule : list nat) (c : config PC) : bool :=
  match schedule with
  | [] => true
  | tid :: rest =>
      match sched_step tid c with
      | Some c' => enabled rest c'
      | None => false
      end
  end.
End Scheduler.

Definition start {PC} (entry : PC) (args : list Arg) : config PC :=
  Config (Shared false []) ((λ a, (a, entry)) <$> args).

(** *** ZSerialOopsDo::oops_do, ZSerialUnlinkOrOopsDo::unlink_or_oops_do

    [if (!_claimed && Atomic::cmpxchg(true, &_claimed, false) == false)
       (_iter->*F)(...);] *)
Inductive serial_pc :=
  | serial_test      (* about to read [_claimed] *)
  | serial_cmpxchg   (* read [false], about to compare-and-swap *)
  | serial_call      (* won the swap, about to call [F] *)
  | serial_returned.

#[global] Instance serial_pc_eq_dec : EqDecision serial_pc.
Proof. solve_decision. Defined.

Definition ZSerial_step (tid : nat) (a : Arg) (pc : serial_pc) (m : shared)
  : option (serial_pc * shared) :=
  match pc with
  | serial_test =>
      Some (if negb (the_flag m) then serial_cmpxchg else serial_returned, m)
  | serial_cmpxchg =>
      let found := the_flag m in
      Some (if bool_decide (found = false) then serial_call
            else serial_returned,
            Shared (if bool_decide (found = false) then true else found)
                   (executions m))
  | serial_call =>
      Some (serial_returned,
            Shared (the_flag m) (executions m ++ [(tid, a)]))
  | serial_returned => None
  end.

(** *** ZParallelOopsDo::oops_do, ZParallelUnlinkOrOopsDo::unlink_or_oops_do

    [if (!_completed) { (_iter->*F)(...);
                        if (!_completed) { _completed = true; } }] *)
Inductive parallel_pc :=
  | parallel_test     (* about to read [_completed] *)
  | parallel_call     (* read [false], about to call [F] *)
  | parallel_retest   (* [F] returned, about to read [_completed] again *)
  | parallel_set      (* read [false] again, about to write [true] *)
  | parallel_returned.

#[global] Instance parallel_pc_eq_dec : EqDecision parallel_pc.
Proof. solve_decision. Defined.

Definition ZParallel_step (tid : nat) (a : Arg) (pc : parallel_pc)
    (m : shared) : option (parallel_pc * shared) :=
  match pc with
  | parallel_test =>
      Some (if negb (the_flag m) then parallel_call else parallel_returned, m)
  | parallel_call =>
      Some (parallel_retest,
            Shared (the_flag m) (executions m ++ [(tid, a)]))
  | parallel_retest =>
      Some (if negb (the_flag m) then parallel_set else parallel_returned, m)
  | parallel_set =>
      Some (parallel_returned, Shared true (executions m))
  | parallel_returned => None
  end.

(** Every call has returned. *)
Definition serial_finished (c : config serial_pc) : Prop :=
  Forall (λ t, t.2 = serial_returned) (pool c).

Definition parallel_finished (c : config parallel_pc) : Prop :=
  Forall (λ t, t.2 = parallel_returned) (pool c).

(** Steps a call still has to take, at most. *)
Definition serial_fuel (pc : serial_pc) : nat :=
  match pc with
  | serial_test => 3 | serial_cmpxchg => 2 | serial_call => 1
  | serial_returned => 0
  end%nat.

Definition parallel_fuel (pc : parallel_pc) : nat :=
  match pc with
  | parallel_test => 4 | parallel_call => 3 | parallel_retest => 2
  | parallel_set => 1 | parallel_returned => 0
  end%nat.

Definition total_fuel {PC} (fuel : PC → nat) (c : config PC) : nat :=
  sum_list ((λ t, fuel t.2) <$> pool c).

(** While the flag is unset nobody has got past the swap; once it is set
    exactly one thread, the winner, has, and the traversal function has
    run for it alone, if at all. *)
Definition serial_inv (c : config serial_pc) : Prop :=
  if the_flag (mem c) then
    ∃ tid a pc,
      pool c !! tid = Some (a, pc) ∧
      ((pc = serial_call ∧ executions (mem c) = []) ∨
       (pc = serial_returned ∧ executions (mem c) = [(tid, a)])) ∧
      ∀ tid' a', pool c !! tid' = Some (a', serial_call) → tid' = tid
  else
    executions (mem c) = [] ∧
    ∀ tid a pc, pool c !! tid = Some (a, pc) →
                pc = serial_test ∨ pc = serial_cmpxchg.

(** A call that has not yet got to the traversal function. *)
Definition before_call (pc : parallel_pc) : nat :=
  match pc with parallel_test | parallel_call => 1 | _ => 0 end%nat.

(** The traversal function has run at most once per call that got past
    it; it has run whenever the flag is set or a call is past it; and a
    call only returns with the flag set. *)
Definition parallel_inv (c : config parallel_pc) : Prop :=
  (length (executions (mem c)) + sum_list ((λ t, before_call t.2) <$> pool c)
     ≤ length (pool c))%nat ∧
  (the_flag (mem c) = true → executions (mem c) ≠ []) ∧
  ∀ tid a pc, pool c !! tid = Some (a, pc) →
    match pc with
    | parallel_retest | parallel_set => executions (mem c) ≠ []
    | parallel_returned => the_flag (mem c) = true
    | _ => True
    end.

End Interleaving.

Arguments shared Arg : clear implicits.
Arguments config Arg PC : clear implicits.
Arguments Config {Arg PC} mem pool.
Arguments mem {Arg PC} c.
Arguments pool {Arg PC} c.

(* ===================================================================== *)
(** ** Concrete inputs used by the examples below *)
(* ===================================================================== *)

(** A thread in VM state with one block slot at address 8 holding the
    object at 4096, and one weak slot at address 16 whose referent has
    been cleared; 17 is the weak handle of that slot. *)
Definition sample_vm : JNIHandles.vm :=
  JNIHandles.VM {[ 8 := 4096; 16 := JNIHandles.NULL ]} false.

Definition sample_vm_destroyed : JNIHandles.vm :=
  JNIHandles.VM (<[ 8 := JNIHandles.NULL ]> {[ 8 := 4096; 16 := JNIHandles.NULL ]})
                false.

(** Weak roots handled in a phase of their own, weak JNI handles in the
    pause; every guard taken to be of the serial template. *)
Definition weak_roots_separate : ZGlobals :=
  {| ZWeakRoots := true; ZConcurrentJNIWeakGlobalHandles := false |}.

Definition every_guard_serial {Member} : Member → guard_kind := λ _, Serial.

(** Three workers calling one guard with the visitors 10, 20 and 30.  In
    the first schedule all three read the flag before any of them goes on;
    in the second each call returns before the next one starts. *)
Definition three_callers : list OopClosure := [10; 20; 30].

Definition overlapping_schedule : list nat :=
  [0; 1; 2; 1; 0; 2; 1; 0; 2; 1; 0; 2]%nat.

Definition one_after_another : list nat :=
  [0; 0; 0; 0; 1; 2]%nat.

(** The guard of the thread roots as a parallel guard, called once. *)
Definition threads_guard_call : M ZRootsIterator.member unit :=
  ZParallelOopsDo_oops_do ZRootsIterator._threads ZRootsIterator.do_threads 7.

(* ===================================================================== *)
(** ** ZConcurrentWeakRootsIterator and ZThreadRootsIterator *)
(* ===================================================================== *)

Module ZConcurrentWeakRootsIterator.

Inductive member := _jni_weak_handles.

#[global] Instance member_eq_dec : EqDecision member.
Proof. solve_decision. Defined.

Section OopsDo.
Variable globals : ZGlobals.
Variable kind : member → guard_kind.
(** [_par_state.oops_do]: the partitioned scan of the weak global handle
    storage, a member function of [OopStorage::ParState]. *)
Variable _par_state_oops_do : OopClosure → M member unit.

Definition do_jni_weak_handles (cl : OopClosure) : M member unit :=
  _par_state_oops_do cl.

Definition oops_do (cl : OopClosure) : M member unit :=
  if ZWeakRoots globals then
    if ZConcurrentJNIWeakGlobalHandles globals then
      guard_oops_do (kind _jni_weak_handles) _jni_weak_handles
                    do_jni_weak_handles cl
    else mret ()
  else mret ().
End OopsDo.

End ZConcurrentWeakRootsIterator.

Module ZThreadRootsIterator.

Inductive member := _threads.

#[global] Instance member_eq_dec : EqDecision member.
Proof. solve_decision. Defined.

Definition do_threads (cl : OopClosure) : M member unit :=
  invoke (Threads_possibly_parallel_oops_do true cl None).

Definition oops_do (kind : member → guard_kind) (cl : OopClosure)
  : M member unit :=
  guard_oops_do (kind _threads) _threads do_threads cl.

End ZThreadRootsIterator.

(** How many times the guard of [g] occurs in a list of guard entries. *)
Definition times_entered {Member} `{EqDecision Member} (g : Member)
    (d : list (Member * guard_args)) : nat :=
  length (filter (λ e, e.1 = g) d).

(** The schedule in which [T] threads take turns, one step each, for a
    number of rounds. *)
Definition round_robin (T rounds : nat) : list nat :=
  concat (replicate rounds (seq 0 T)).

(** The shared state after the threads [k], [k+1], ... have each taken a
    step that changes it by [upd]. *)
Fixpoint phase_mem {Arg} (upd : nat → Arg → shared Arg → shared Arg)
    (k : nat) (rest : list Arg) (m : shared Arg) : shared Arg :=
  match rest with
  | [] => m
  | a :: rest' => phase_mem upd (S k) rest' (upd k a m)
  end.

(** Weak roots handled in a phase of their own and weak JNI handles
    outside the pause; a scan of the weak storage that makes one
    collaborator call. *)
Definition both_switches : ZGlobals :=
  {| ZWeakRoots := true; ZConcurrentJNIWeakGlobalHandles := true |}.

Definition one_call_scan (cl : OopClosure)
  : M ZConcurrentWeakRootsIterator.member unit :=
  invoke (JNIHandles_weak_oops_do_1 cl).

(* ===================================================================== *)
(** * Properties of the handle functions *)
(* ===================================================================== *)

Section HandleProperties.
Import JNIHandles.

Lemma weak_tag_mask_value : weak_tag_mask = 1.
Proof. reflexivity. Qed.

Lemma STATIC_ASSERT_is_jweak : weak_tag_size = 1 ∧ weak_tag_value = 1.
Proof. split; reflexivity. Qed.

Lemma is_jweak_spec (h : jobject) :
  is_jweak h = true ↔ Z.land h weak_tag_mask ≠ 0.
Proof.
  unfold is_jweak. rewrite negb_true_iff, Z.eqb_neq. reflexivity.
Qed.

Lemma is_jweak_low_bit (h : jobject) : is_jweak h = Z.odd h.
Proof.
  unfold is_jweak. rewrite weak_tag_mask_value.
  change 1 with (Z.ones 1). rewrite Z.land_ones by lia.
  rewrite Zmod_odd. destruct (Z.odd h); reflexivity.
Qed.

Lemma is_jweak_not_null (h : jobject) : is_jweak h = true → h ≠ NULL.
Proof. rewrite is_jweak_low_bit. intros H ->. discriminate H. Qed.

Lemma jobject_ref_strong (h : jobject) :
  is_jweak h = false → jobject_ref h = Ok h.
Proof. intros H. unfold jobject_ref. rewrite H. reflexivity. Qed.

Lemma jweak_ref_addr_weak (h : jobject) :
  is_jweak h = true → jweak_ref_addr h = Ok (h - weak_tag_value).
Proof. intros H. unfold jweak_ref_addr. rewrite H. reflexivity. Qed.

Lemma neqb_NULL (h : jobject) : h ≠ NULL → negb (h =? NULL) = true.
Proof. intros H. apply negb_true_iff, Z.eqb_neq, H. Qed.

Lemma load_mapped (s : vm) (addr : Z) (v : oop) :
  slots s !! addr = Some v → JNIHandles.load s addr = Ok v.
Proof. intros H. unfold JNIHandles.load. rewrite H. reflexivity. Qed.

Lemma store_mapped (s : vm) (addr : Z) (v w : oop) :
  slots s !! addr = Some v →
  JNIHandles.store s addr w =
    Ok (VM (<[addr := w]> (slots s)) (thread_in_native s)).
Proof. intros H. unfold JNIHandles.store. rewrite H. reflexivity. Qed.

(** What [resolve_impl] does on a strong handle to a mapped slot. *)
Lemma resolve_impl_strong (g : bool) (s : vm) (h : jobject) (v : oop) :
  h ≠ NULL → current_thread_in_native s = false → is_jweak h = false →
  slots s !! h = Some v →
  resolve_impl g s h =
    if g || negb (v =? NULL) then Ok v
    else AssertionFailure "Invalid JNI handle".
Proof.
  intros Hn Ht Hw Hs. unfold resolve_impl.
  rewrite (neqb_NULL h Hn), Ht, Hw. cbn.
  rewrite (jobject_ref_strong h Hw). cbn.
  rewrite (load_mapped s h v Hs). cbn.
  destruct (g || negb (v =? NULL)); reflexivity.
Qed.

Lemma resolve_impl_weak (g : bool) (s : vm) (h : jobject) :
  current_thread_in_native s = false → is_jweak h = true →
  resolve_impl g s h = resolve_jweak s h.
Proof.
  intros Ht Hw. unfold resolve_impl.
  rewrite (neqb_NULL h (is_jweak_not_null h Hw)), Ht, Hw. reflexivity.
Qed.

Lemma resolve_jweak_slot (s : vm) (h : jobject) (v : oop) :
  is_jweak h = true → slots s !! (h - weak_tag_value) = Some v →
  resolve_jweak s h = Ok v.
Proof.
  intros Hw Hs. unfold resolve_jweak, jweak_ref.
  rewrite (jweak_ref_addr_weak h Hw). cbn. apply load_mapped, Hs.
Qed.

(** C5: [is_jweak] holds exactly when the address has a bit of
    [weak_tag_mask] set, the mask being the single low bit 1; the slot of
    a strong handle is at the handle's own address, the slot of a weak
    handle at the address less [weak_tag_value] = 1; both decodings are
    functions of the address alone. *)
Theorem tagged_handle_encoding (a : jobject) :
  weak_tag_mask = 1 ∧ weak_tag_value = 1 ∧
  (is_jweak a = true ↔ Z.land a weak_tag_mask ≠ 0) ∧
  is_jweak a = Z.testbit a 0 ∧
  (if is_jweak a then jweak_ref_addr a = Ok (a - weak_tag_value)
   else jobject_ref a = Ok a).
Proof.
  split; [reflexivity|]. split; [reflexivity|].
  split; [apply is_jweak_spec|].
  split; [rewrite is_jweak_low_bit; symmetry; apply Z.bit0_odd|].
  destruct (is_jweak a) eqn:E.
  - apply jweak_ref_addr_weak, E.
  - apply jobject_ref_strong, E.
Qed.

(** C3: [resolve_external_guard] returns null, normally, for a null
    handle, for a strong handle whose slot holds null and for a weak
    handle whose referent was cleared (the calling thread not being in
    native state, as every resolve of a non-null handle requires). *)
Theorem resolve_external_guard_null_cases (s : vm) (h : jobject)
    (Hthread : current_thread_in_native s = false) :
  (h = NULL → resolve_external_guard s h = Ok NULL) ∧
  (h ≠ NULL → is_jweak h = false → slots s !! h = Some NULL →
     resolve_external_guard s h = Ok NULL) ∧
  (is_jweak h = true → slots s !! (h - weak_tag_value) = Some NULL →
     resolve_external_guard s h = Ok NULL).
Proof.
  repeat split.
  - intros ->. reflexivity.
  - intros Hn Hw Hs. unfold resolve_external_guard.
    rewrite (neqb_NULL h Hn).
    rewrite (resolve_impl_strong true s h NULL Hn Hthread Hw Hs).
    reflexivity.
  - intros Hw Hs. unfold resolve_external_guard.
    rewrite (neqb_NULL h (is_jweak_not_null h Hw)).
    rewrite (resolve_impl_weak true s h Hthread Hw).
    apply resolve_jweak_slot; assumption.
Qed.

Lemma resolve_external_guard_null_cases_witness :
  resolve_external_guard sample_vm NULL = Ok NULL ∧
  resolve_external_guard sample_vm_destroyed 8 = Ok NULL ∧
  resolve_external_guard sample_vm 17 = Ok NULL.
Proof.
  split; [|split].
  - apply (proj1 (resolve_external_guard_null_cases sample_vm NULL eq_refl)).
    reflexivity.
  - apply (proj1 (proj2 (resolve_external_guard_null_cases
                           sample_vm_destroyed 8 eq_refl)));
      [discriminate | reflexivity | reflexivity].
  - apply (proj2 (proj2 (resolve_external_guard_null_cases
                           sample_vm 17 eq_refl)));
      reflexivity.
Defined.

(** C4: [resolve] returns null for a null handle; for a weak handle it is
    the weak resolution (which is null once the referent is cleared); for
    a strong handle it is the slot's content, a null content being an
    assertion failure [Invalid JNI handle]. *)
Theorem resolve_cases (s : vm) (h : jobject)
    (Hthread : current_thread_in_native s = false) :
  (h = NULL → resolve s h = Ok NULL) ∧
  (is_jweak h = true → resolve s h = resolve_jweak s h) ∧
  (is_jweak h = true → slots s !! (h - weak_tag_value) = Some NULL →
     resolve s h = Ok NULL) ∧
  (∀ v, h ≠ NULL → is_jweak h = false → slots s !! h = Some v →
     resolve s h = if v =? NULL then AssertionFailure "Invalid JNI handle"
                   else Ok v).
Proof.
  repeat split.
  - intros ->. reflexivity.
  - intros Hw. unfold resolve.
    rewrite (neqb_NULL h (is_jweak_not_null h Hw)).
    apply resolve_impl_weak; assumption.
  - intros Hw Hs. unfold resolve.
    rewrite (neqb_NULL h (is_jweak_not_null h Hw)).
    rewrite (resolve_impl_weak false s h Hthread Hw).
    apply resolve_jweak_slot; assumption.
  - intros v Hn Hw Hs. unfold resolve. rewrite (neqb_NULL h Hn).
    rewrite (resolve_impl_strong false s h v Hn Hthread Hw Hs). cbn.
    destruct (v =? NULL); reflexivity.
Qed.

Lemma resolve_cases_witness :
  resolve sample_vm NULL = Ok NULL ∧
  resolve sample_vm 17 = Ok NULL ∧
  resolve sample_vm 8 = Ok 4096 ∧
  resolve sample_vm_destroyed 8 = AssertionFailure "Invalid JNI handle".
Proof.
  split; [|split; [|split]].
  - apply (proj1 (resolve_cases sample_vm NULL eq_refl)). reflexivity.
  - apply (proj1 (proj2 (proj2 (resolve_cases sample_vm 17 eq_refl))));
      reflexivity.
  - apply (proj2 (proj2 (proj2 (resolve_cases sample_vm 8 eq_refl))) 4096);
      [discriminate | reflexivity | reflexivity].
  - apply (proj2 (proj2 (proj2 (resolve_cases sample_vm_destroyed 8 eq_refl)))
             NULL);
      [discriminate | reflexivity | reflexivity].
Defined.

Lemma destroy_local_strong (s : vm) (h : jobject) (v : oop) :
  h ≠ NULL → is_jweak h = false → slots s !! h = Some v →
  destroy_local s h =
    Ok (VM (<[h := NULL]> (slots s)) (thread_in_native s)).
Proof.
  intros Hn Hw Hs. unfold destroy_local.
  rewrite (neqb_NULL h Hn), Hw. cbn.
  rewrite (jobject_ref_strong h Hw). cbn.
  apply (store_mapped s h v NULL Hs).
Qed.

(** C9, as the code has it: resolving a local handle through [resolve]
    after it was destroyed is an assertion failure [Invalid JNI handle];
    destroying it a second time is not detected, the second
    [destroy_local] returns normally and leaves the slot null. *)
Theorem destroy_local_then_resolve (s : vm) (h : jobject) (v : oop) :
  h ≠ NULL → is_jweak h = false → slots s !! h = Some v →
  current_thread_in_native s = false →
  ∃ s1, destroy_local s h = Ok s1 ∧
        slots s1 !! h = Some NULL ∧
        resolve s1 h = AssertionFailure "Invalid JNI handle" ∧
        destroy_local s1 h = Ok s1.
Proof.
  intros Hn Hw Hs Ht.
  set (s1 := VM (<[h := NULL]> (slots s)) (thread_in_native s)).
  assert (Hs1 : slots s1 !! h = Some NULL) by apply lookup_insert_eq.
  assert (Ht1 : current_thread_in_native s1 = false) by exact Ht.
  exists s1.
  split; [apply (destroy_local_strong s h v Hn Hw Hs)|].
  split; [exact Hs1|]. split.
  - unfold resolve. rewrite (neqb_NULL h Hn).
    rewrite (resolve_impl_strong false s1 h NULL Hn Ht1 Hw Hs1).
    reflexivity.
  - rewrite (destroy_local_strong s1 h NULL Hn Hw Hs1).
    unfold s1. cbn [slots thread_in_native].
    rewrite insert_insert_eq. reflexivity.
Qed.

Lemma destroy_local_then_resolve_witness :
  ∃ s1, destroy_local sample_vm 8 = Ok s1 ∧
        slots s1 !! 8 = Some NULL ∧
        resolve s1 8 = AssertionFailure "Invalid JNI handle" ∧
        destroy_local s1 8 = Ok s1.
Proof.
  apply (destroy_local_then_resolve sample_vm 8 4096);
    [discriminate | reflexivity | reflexivity | reflexivity].
Defined.

(** C9 as stated fails: the local handle 8 is destroyed twice and the
    second [destroy_local] returns normally. *)
Lemma destroy_local_twice_is_silent :
  destroy_local sample_vm 8 = Ok sample_vm_destroyed ∧
  destroy_local sample_vm_destroyed 8 = Ok sample_vm_destroyed ∧
  returns_normally (destroy_local sample_vm_destroyed 8) = true.
Proof. repeat split. Qed.

End HandleProperties.

(* ===================================================================== *)
(** * Properties of the guards, one call at a time *)
(* ===================================================================== *)

Section GuardProperties.
Context {Member : Type} `{EqDecision Member}.
Implicit Types (it : iterator Member) (g : Member) (cl : OopClosure).

Lemma exec_seq {A} (m : M Member A) (k : M Member unit) it :
  exec (m ≫= λ _, k) it = exec k (exec m it).
Proof. unfold exec, mbind, M_bind. destruct (m it). reflexivity. Qed.

Lemma exec_ret it : exec (mret ()) it = it.
Proof. reflexivity. Qed.

Lemma invoke_makes_calls c : makes_calls (Member := Member) (invoke c) [c].
Proof. intros it. reflexivity. Qed.

Lemma ZSerialOopsDo_oops_do_exec g F cl cs it :
  makes_calls (F cl) cs →
  exec (ZSerialOopsDo_oops_do g F cl) it = guarded g (oops_do_args cl) cs it.
Proof.
  intros HF. unfold ZSerialOopsDo_oops_do, guarded.
  unfold exec, mbind, M_bind, enter, read_flag, Atomic_cmpxchg. cbn.
  destruct (flag it g) eqn:E; cbn; rewrite ?E; cbn.
  - rewrite app_nil_r. reflexivity.
  - rewrite !(bool_decide_eq_true_2 (false = false) eq_refl).
    apply (HF (set_flag g true (Iterator _ _ _))).
Qed.

Lemma ZSerialUnlinkOrOopsDo_exec g F is_alive cl cs it :
  makes_calls (F is_alive cl) cs →
  exec (ZSerialUnlinkOrOopsDo_unlink_or_oops_do g F is_alive cl) it =
    guarded g (unlink_or_oops_do_args is_alive cl) cs it.
Proof.
  intros HF. unfold ZSerialUnlinkOrOopsDo_unlink_or_oops_do, guarded.
  unfold exec, mbind, M_bind, enter, read_flag, Atomic_cmpxchg. cbn.
  destruct (flag it g) eqn:E; cbn; rewrite ?E; cbn.
  - rewrite app_nil_r. reflexivity.
  - rewrite !(bool_decide_eq_true_2 (false = false) eq_refl).
    apply (HF (set_flag g true (Iterator _ _ _))).
Qed.

Lemma ZParallelOopsDo_oops_do_exec g F cl cs it :
  makes_calls (F cl) cs →
  exec (ZParallelOopsDo_oops_do g F cl) it = guarded g (oops_do_args cl) cs it.
Proof.
  intros HF. unfold ZParallelOopsDo_oops_do, guarded.
  rewrite exec_seq.
  unfold exec at 1, mbind, M_bind, read_flag. cbn.
  destruct (flag it g) eqn:E; cbn.
  - rewrite app_nil_r. reflexivity.
  - pose proof (HF (Iterator (flag it) (entered it ++ [(g, oops_do_args cl)])
                             (called it))) as HF'.
    unfold exec in HF'. unfold enter. cbn.
    destruct (F cl _) as [[] it']. cbn in HF'. subst it'. cbn.
    rewrite E. reflexivity.
Qed.

Lemma ZParallelUnlinkOrOopsDo_exec g F is_alive cl cs it :
  makes_calls (F is_alive cl) cs →
  exec (ZParallelUnlinkOrOopsDo_unlink_or_oops_do g F is_alive cl) it =
    guarded g (unlink_or_oops_do_args is_alive cl) cs it.
Proof.
  intros HF. unfold ZParallelUnlinkOrOopsDo_unlink_or_oops_do, guarded.
  rewrite exec_seq.
  unfold exec at 1, mbind, M_bind, read_flag. cbn.
  destruct (flag it g) eqn:E; cbn.
  - rewrite app_nil_r. reflexivity.
  - pose proof (HF (Iterator (flag it)
                      (entered it ++ [(g, unlink_or_oops_do_args is_alive cl)])
                      (called it))) as HF'.
    unfold exec in HF'. unfold enter. cbn.
    destruct (F is_alive cl _) as [[] it']. cbn in HF'. subst it'. cbn.
    rewrite E. reflexivity.
Qed.

Lemma guard_oops_do_exec k g F cl cs it :
  makes_calls (F cl) cs →
  exec (guard_oops_do k g F cl) it = guarded g (oops_do_args cl) cs it.
Proof.
  destruct k; [apply ZSerialOopsDo_oops_do_exec
              |apply ZParallelOopsDo_oops_do_exec].
Qed.

Lemma guard_unlink_or_oops_do_exec k g F is_alive cl cs it :
  makes_calls (F is_alive cl) cs →
  exec (guard_unlink_or_oops_do k g F is_alive cl) it =
    guarded g (unlink_or_oops_do_args is_alive cl) cs it.
Proof.
  destruct k; [apply ZSerialUnlinkOrOopsDo_exec
              |apply ZParallelUnlinkOrOopsDo_exec].
Qed.

Lemma guarded_flag g a cs it g' :
  flag (guarded g a cs it) g' = if decide (g' = g) then true else flag it g'.
Proof.
  unfold guarded. cbn. destruct (flag it g) eqn:E; cbn.
  - destruct (decide (g' = g)) as [->|]; [exact E | reflexivity].
  - reflexivity.
Qed.

Lemma guarded_entered g a cs it :
  entered (guarded g a cs it) = entered it ++ [(g, a)].
Proof. reflexivity. Qed.

Lemma guarded_called g a cs it :
  called (guarded g a cs it) = called it ++ if flag it g then [] else cs.
Proof. reflexivity. Qed.

Lemma guarded_all_entered a cs gs it :
  entered (guarded_all a cs gs it) = entered it ++ ((λ g, (g, a)) <$> gs).
Proof.
  revert it. induction gs as [|g gs IH]; intros it; cbn.
  - rewrite app_nil_r. reflexivity.
  - unfold guarded_all in IH. rewrite IH, guarded_entered.
    rewrite <- app_assoc. reflexivity.
Qed.

Lemma guarded_all_called a cs gs it :
  NoDup gs →
  called (guarded_all a cs gs it) =
    called it ++ concat ((λ g, if flag it g then [] else cs g) <$> gs).
Proof.
  revert it. induction gs as [|g gs IH]; intros it Hnd; cbn.
  - rewrite app_nil_r. reflexivity.
  - apply NoDup_cons in Hnd as [Hg Hnd].
    unfold guarded_all in IH. rewrite (IH _ Hnd), guarded_called.
    rewrite <- app_assoc. do 3 f_equal.
    apply Forall_fmap_ext, Forall_forall. intros g' Hg'.
    rewrite guarded_flag. destruct (decide (g' = g)) as [->|]; [|reflexivity].
    contradiction.
Qed.

Lemma dispatched_by_entered {A} (m : M Member A) it d :
  entered (exec m it) = entered it ++ d → dispatched_by m it = d.
Proof. intros H'. unfold dispatched_by. rewrite H'. apply drop_app_length. Qed.

Lemma called_by_called {A} (m : M Member A) it d :
  called (exec m it) = called it ++ d → called_by m it = d.
Proof. intros H'. unfold called_by. rewrite H'. apply drop_app_length. Qed.

End GuardProperties.

(* ===================================================================== *)
(** * Properties of the strong root iterator *)
(* ===================================================================== *)

Section StrongRoots.
Import ZRootsIterator.
Variable globals : ZGlobals.
Variable kind : member → guard_kind.

Lemma traversal_makes_calls (g : member) (cl : OopClosure) :
  makes_calls (traversal g cl) (calls_of g cl).
Proof. destruct g; intros it; reflexivity. Qed.

Lemma member_oops_do_exec (g : member) (cl : OopClosure) it :
  exec (member_oops_do kind g cl) it =
    guarded g (oops_do_args cl) (calls_of g cl) it.
Proof. apply guard_oops_do_exec, traversal_makes_calls. Qed.

Lemma dispatch_list_NoDup v : NoDup (dispatch_list globals v).
Proof.
  unfold dispatch_list.
  destruct (ZWeakRoots globals), v; cbn; compute_done.
Qed.

Lemma oops_do_exec (cl : OopClosure) (v : bool) it :
  exec (oops_do globals kind cl v) it =
    guarded_all (oops_do_args cl) (λ g, calls_of g cl) (dispatch_list globals v) it.
Proof.
  unfold oops_do, dispatch_list. rewrite !exec_seq.
  destruct (ZWeakRoots globals), v; cbn [negb];
    rewrite ?exec_seq, ?exec_ret, !member_oops_do_exec; reflexivity.
Qed.

Lemma oops_do_dispatched (cl : OopClosure) (v : bool) it :
  dispatched_by (oops_do globals kind cl v) it =
    (λ g, (g, oops_do_args cl)) <$> dispatch_list globals v.
Proof.
  apply dispatched_by_entered. rewrite oops_do_exec.
  apply guarded_all_entered.
Qed.

Lemma oops_do_called (cl : OopClosure) (v : bool) it :
  called_by (oops_do globals kind cl v) it =
    concat ((λ g, if flag it g then [] else calls_of g cl)
              <$> dispatch_list globals v).
Proof.
  apply called_by_called. rewrite oops_do_exec.
  apply guarded_all_called, dispatch_list_NoDup.
Qed.

(** C6, as the code has it: every call of [oops_do] goes, in this order,
    to the guards of universe, JNI handles, object synchronizer,
    management, JVMTI export, system dictionary, class loader data
    graph, threads and code cache; then, when [ZWeakRoots] is off, to
    the guards of weak JNI handles, JVMTI weak export, trace and string
    table; and when [ZWeakRoots] is on, to the guard of JVMTI weak export
    alone, provided [visit_jvmti_weak_export] is true. *)
Theorem ZRootsIterator_oops_do_dispatch
    (cl : OopClosure) (visit_jvmti_weak_export : bool) it :
  dispatched_by (oops_do globals kind cl visit_jvmti_weak_export) it =
    (λ g, (g, oops_do_args cl)) <$>
      (strong_groups ++
       if negb (ZWeakRoots globals) then weak_groups
       else if visit_jvmti_weak_export then [_jvmti_weak_export] else []).
Proof. apply oops_do_dispatched. Qed.

(** C10: with [ZWeakRoots] on, [oops_do] goes to the guard of JVMTI weak
    export exactly when [visit_jvmti_weak_export] is true, and to no other
    weak group; the traversal behind that guard calls
    [JvmtiExport::weak_oops_do] with the always-true predicate, and the
    collaborator calls of the pass are those of the strong groups and,
    if visited, of JVMTI weak export, each guard permitting. *)
Theorem ZRootsIterator_oops_do_weak_export
    (cl : OopClosure) (visit_jvmti_weak_export : bool) it :
  ZWeakRoots globals = true →
  ((_jvmti_weak_export, oops_do_args cl)
     ∈ dispatched_by (oops_do globals kind cl visit_jvmti_weak_export) it
   ↔ visit_jvmti_weak_export = true) ∧
  (∀ g a,
     (g, a) ∈ dispatched_by (oops_do globals kind cl visit_jvmti_weak_export) it →
     g ∈ weak_groups → g = _jvmti_weak_export) ∧
  calls_of _jvmti_weak_export cl =
    [JvmtiExport_weak_oops_do AlwaysTrueClosure cl] ∧
  called_by (oops_do globals kind cl visit_jvmti_weak_export) it =
    concat ((λ g, if flag it g then [] else calls_of g cl) <$>
              (strong_groups ++
               if visit_jvmti_weak_export then [_jvmti_weak_export] else [])).
Proof.
  intros HZ. rewrite oops_do_dispatched, oops_do_called.
  unfold dispatch_list. rewrite HZ. cbn [negb].
  split; [|split; [|split; reflexivity]].
  - destruct visit_jvmti_weak_export; cbn;
      rewrite ?elem_of_cons, elem_of_nil; split; intros Hx.
    + reflexivity.
    + repeat (first [left; reflexivity | right]).
    + repeat (destruct Hx as [Hx|Hx]; try discriminate Hx). destruct Hx.
    + discriminate Hx.
  - intros g a Hin Hw.
    apply list_elem_of_fmap in Hin as (g' & Heq & Hin).
    injection Heq as <- _.
    apply list_elem_of_In in Hin. apply list_elem_of_In in Hw.
    unfold strong_groups in Hin. unfold weak_groups in Hw.
    destruct g; try reflexivity; exfalso;
      destruct visit_jvmti_weak_export; cbn in Hin, Hw;
      repeat (destruct Hw as [Hw|Hw]; try discriminate Hw); try exact Hw;
      repeat (destruct Hin as [Hin|Hin]; try discriminate Hin); exact Hin.
Qed.

End StrongRoots.

Lemma ZRootsIterator_oops_do_weak_export_witness :
  ((ZRootsIterator._jvmti_weak_export, oops_do_args 7)
     ∈ dispatched_by
         (ZRootsIterator.oops_do weak_roots_separate every_guard_serial 7 true)
         fresh
   ↔ true = true) ∧
  called_by
    (ZRootsIterator.oops_do weak_roots_separate every_guard_serial 7 true)
    fresh =
  [Universe_oops_do 7; JNIHandles_oops_do 7; ObjectSynchronizer_oops_do 7;
   Management_oops_do 7; JvmtiExport_oops_do 7; SystemDictionary_oops_do 7;
   ClassLoaderDataGraph_cld_do 7;
   Threads_possibly_parallel_oops_do true 7 None; ZNMethodTable_oops_do 7;
   JvmtiExport_weak_oops_do AlwaysTrueClosure 7].
Proof.
  pose proof (ZRootsIterator_oops_do_weak_export weak_roots_separate
                every_guard_serial 7 true fresh eq_refl) as (H1 & _ & _ & H4).
  split; [exact H1 |]. rewrite H4. vm_compute. reflexivity.
Defined.

(** C6 as stated fails: with [ZWeakRoots] on and [visit_jvmti_weak_export]
    true, the pass goes to the guard of JVMTI weak export after the nine
    strong groups. *)
Lemma strong_pass_reaches_weak_export_when_separate :
  ZWeakRoots weak_roots_separate = true ∧
  dispatched_by
    (ZRootsIterator.oops_do weak_roots_separate every_guard_serial 7 true)
    fresh =
  ((λ g, (g, oops_do_args 7)) <$> ZRootsIterator.strong_groups) ++
  [(ZRootsIterator._jvmti_weak_export, oops_do_args 7)] ∧
  dispatched_by
    (ZRootsIterator.oops_do weak_roots_separate every_guard_serial 7 true)
    fresh ≠
  (λ g, (g, oops_do_args 7)) <$>
    (ZRootsIterator.strong_groups ++
     if negb (ZWeakRoots weak_roots_separate) then ZRootsIterator.weak_groups
     else []).
Proof.
  split; [reflexivity|]. split; [vm_compute; reflexivity|].
  intros Heq. vm_compute in Heq. discriminate Heq.
Qed.

(* ===================================================================== *)
(** * Properties of the weak root iterator *)
(* ===================================================================== *)

Section WeakRoots.
Import ZWeakRootsIterator.
Variable globals : ZGlobals.
Variable kind : member → guard_kind.

Lemma weak_traversal_makes_calls (g : member)
    (is_alive : BoolObjectClosure) (cl : OopClosure) :
  makes_calls (traversal g is_alive cl) (calls_of g is_alive cl).
Proof. destruct g; intros it; reflexivity. Qed.

Lemma member_unlink_or_oops_do_exec (g : member)
    (is_alive : BoolObjectClosure) (cl : OopClosure) it :
  exec (member_unlink_or_oops_do kind g is_alive cl) it =
    guarded g (unlink_or_oops_do_args is_alive cl) (calls_of g is_alive cl) it.
Proof. apply guard_unlink_or_oops_do_exec, weak_traversal_makes_calls. Qed.

Lemma weak_dispatch_list_NoDup : NoDup (weak_dispatch_list globals).
Proof.
  unfold weak_dispatch_list.
  destruct (ZWeakRoots globals), (ZConcurrentJNIWeakGlobalHandles globals);
    cbn; compute_done.
Qed.

Lemma unlink_or_oops_do_exec (is_alive : BoolObjectClosure)
    (cl : OopClosure) it :
  exec (unlink_or_oops_do globals kind is_alive cl) it =
    guarded_all (unlink_or_oops_do_args is_alive cl)
                (λ g, calls_of g is_alive cl)
                (weak_dispatch_list globals) it.
Proof.
  unfold unlink_or_oops_do, weak_dispatch_list. rewrite !exec_seq.
  destruct (ZWeakRoots globals), (ZConcurrentJNIWeakGlobalHandles globals);
    cbn [negb];
    rewrite ?exec_seq, ?exec_ret, !member_unlink_or_oops_do_exec;
    reflexivity.
Qed.

(** C7: every call of [unlink_or_oops_do] goes to the guard of the symbol
    table with the liveness predicate and visitor it was given; when
    [ZWeakRoots] is on it goes on to the guards of weak JNI handles
    (unless [ZConcurrentJNIWeakGlobalHandles] is on), JVMTI weak export,
    trace and string table, each with the same predicate and visitor;
    when [ZWeakRoots] is off it goes to no other guard.  On a fresh
    iterator the collaborator calls are the corresponding ones (the
    symbol table traversal itself takes no closure). *)
Theorem ZWeakRootsIterator_unlink_or_oops_do_dispatch
    (is_alive : BoolObjectClosure) (cl : OopClosure) it :
  dispatched_by (unlink_or_oops_do globals kind is_alive cl) it =
    (λ g, (g, unlink_or_oops_do_args is_alive cl)) <$>
      (_symbol_table ::
       if ZWeakRoots globals then
         (if negb (ZConcurrentJNIWeakGlobalHandles globals)
          then [_jni_weak_handles] else []) ++
         [_jvmti_weak_export; _trace; _string_table]
       else []) ∧
  called_by (unlink_or_oops_do globals kind is_alive cl) fresh =
    SymbolTable_possibly_parallel_unlink ::
    if ZWeakRoots globals then
      (if negb (ZConcurrentJNIWeakGlobalHandles globals)
       then [JNIHandles_weak_oops_do_2 is_alive cl] else []) ++
      [JvmtiExport_weak_oops_do is_alive cl;
       TRACE_WEAK_OOPS_DO is_alive cl;
       StringTable_possibly_parallel_unlink_or_oops_do is_alive cl]
    else [].
Proof.
  split.
  - apply dispatched_by_entered. rewrite unlink_or_oops_do_exec.
    apply guarded_all_entered.
  - apply called_by_called. rewrite unlink_or_oops_do_exec.
    rewrite (guarded_all_called _ _ _ _ weak_dispatch_list_NoDup).
    unfold weak_dispatch_list.
    destruct (ZWeakRoots globals), (ZConcurrentJNIWeakGlobalHandles globals);
      reflexivity.
Qed.

(** C8: for every visitor, the visit-only entry point [oops_do] is
    [unlink_or_oops_do] run with the always-true liveness predicate and
    that visitor: on every iterator state the two give the same result
    and the same state. *)
Theorem ZWeakRootsIterator_oops_do_always_alive (cl : OopClosure) it :
  oops_do globals kind cl it =
    unlink_or_oops_do globals kind AlwaysTrueClosure cl it ∧
  ∀ o, do_object_b AlwaysTrueClosure o = true.
Proof. split; [reflexivity | intros o; reflexivity]. Qed.

End WeakRoots.

(* ===================================================================== *)
(** * Properties of the guards under interleaving *)
(* ===================================================================== *)

Lemma sum_list_fmap_insert {A} (f : A → nat) (l : list A) (i : nat) (x y : A) :
  l !! i = Some x →
  (sum_list (f <$> <[i := y]> l) + f x = sum_list (f <$> l) + f y)%nat.
Proof.
  revert i. induction l as [|z l IH]; intros [|i] Hl; try discriminate Hl.
  - injection Hl as ->. cbn. lia.
  - specialize (IH i Hl).
    change (<[S i := y]> (z :: l)) with (z :: <[i := y]> l).
    rewrite !fmap_cons. cbn [sum_list_with]. unfold id at 1 3. lia.
Qed.

Section SchedulerProperties.
Context {Arg PC : Type}.
Variable thread_step : nat → Arg → PC → shared Arg → option (PC * shared Arg).
Variable fuel : PC → nat.
Hypothesis step_fuel : ∀ tid a pc m pc' m',
  thread_step tid a pc m = Some (pc', m') → (fuel pc' < fuel pc)%nat.

Lemma sched_step_inv tid (c c' : config Arg PC) :
  sched_step thread_step tid c = Some c' →
  ∃ a pc pc' m', pool c !! tid = Some (a, pc) ∧
                 thread_step tid a pc (mem c) = Some (pc', m') ∧
                 c' = Config m' (<[tid := (a, pc')]> (pool c)).
Proof.
  unfold sched_step. intros Hs.
  destruct (pool c !! tid) as [[a pc]|]; [|discriminate Hs].
  destruct (thread_step tid a pc (mem c)) as [[pc' m']|] eqn:Ht;
    [|discriminate Hs].
  injection Hs as <-. exists a, pc, pc', m'. auto.
Qed.

Lemma interleave_fuel (c c' : config Arg PC) :
  interleave thread_step c c' →
  (total_fuel fuel c' < total_fuel fuel c)%nat.
Proof.
  intros [tid Hs].
  apply sched_step_inv in Hs as (a & pc & pc' & m' & Hl & Ht & ->).
  unfold total_fuel. cbn [pool].
  pose proof (sum_list_fmap_insert (λ t, fuel t.2) (pool c) tid
                (a, pc) (a, pc') Hl) as Hsum.
  cbn in Hsum. apply step_fuel in Ht. lia.
Qed.

Lemma nsteps_fuel n (c c' : config Arg PC) :
  nsteps (interleave thread_step) n c c' →
  (n + total_fuel fuel c' ≤ total_fuel fuel c)%nat.
Proof.
  induction 1 as [|n x y z Hxy _ IH]; [lia|].
  apply interleave_fuel in Hxy. lia.
Qed.

Lemma interleave_args (c c' : config Arg PC) :
  interleave thread_step c c' → (pool c').*1 = (pool c).*1.
Proof.
  intros [tid Hs].
  apply sched_step_inv in Hs as (a & pc & pc' & m' & Hl & Ht & ->).
  cbn [pool]. rewrite list_fmap_insert. cbn.
  apply list_insert_id. rewrite list_lookup_fmap, Hl. reflexivity.
Qed.

Lemma nsteps_args n (c c' : config Arg PC) :
  nsteps (interleave thread_step) n c c' → (pool c').*1 = (pool c).*1.
Proof.
  induction 1 as [|n x y z Hxy _ IH]; [reflexivity|].
  rewrite IH. apply interleave_args, Hxy.
Qed.

Lemma nsteps_invariant (Inv : config Arg PC → Prop) :
  (∀ c c', Inv c → interleave thread_step c c' → Inv c') →
  ∀ n c c', Inv c → nsteps (interleave thread_step) n c c' → Inv c'.
Proof.
  intros Hpres n c c' Hc Hn. induction Hn as [|n x y z Hxy _ IH]; [exact Hc|].
  apply IH, (Hpres x y Hc Hxy).
Qed.

(** A schedule whose every step is enabled is an execution. *)
Lemma enabled_nsteps (schedule : list nat) (c : config Arg PC) :
  enabled thread_step schedule c = true →
  nsteps (interleave thread_step) (length schedule) c
         (run thread_step schedule c).
Proof.
  revert c. induction schedule as [|tid rest IH]; intros c He; cbn.
  - constructor.
  - cbn in He. destruct (sched_step thread_step tid c) as [c'|] eqn:Hs;
      [|discriminate He].
    apply (nsteps_l _ _ _ c'); [exists tid; exact Hs | apply IH, He].
Qed.

End SchedulerProperties.

Lemma start_fuel {Arg PC} (fuel : PC → nat) (entry : PC) (args : list Arg) :
  total_fuel fuel (start entry args) = (fuel entry * length args)%nat.
Proof.
  unfold total_fuel, start. cbn. induction args as [|a args IH]; cbn; [lia|].
  rewrite IH. lia.
Qed.

Lemma start_args {Arg PC} (entry : PC) (args : list Arg) :
  (pool (start entry args)).*1 = args.
Proof.
  unfold start. cbn. rewrite <- list_fmap_compose.
  induction args as [|a args IH]; cbn; [reflexivity|]. f_equal. exact IH.
Qed.

Section SerialGuard.
Context {Arg : Type}.
Implicit Types (c : config Arg serial_pc) (args : list Arg).

(** The swap succeeds exactly when it finds the flag unset, and leaves
    it set either way. *)
Lemma ZSerial_step_cmpxchg tid (a : Arg) m :
  ZSerial_step tid a serial_cmpxchg m =
    Some (if the_flag m then serial_returned else serial_call,
          Shared true (executions m)).
Proof. destruct m as [[] ex]; reflexivity. Qed.

Lemma ZSerial_step_fuel tid (a : Arg) pc m pc' m' :
  ZSerial_step tid a pc m = Some (pc', m') →
  (serial_fuel pc' < serial_fuel pc)%nat.
Proof.
  destruct pc; [| rewrite ZSerial_step_cmpxchg | |]; cbn; intros Hs;
    try discriminate Hs; injection Hs as <- <-.
  - destruct (the_flag m); cbn; lia.
  - destruct (the_flag m); cbn; lia.
  - cbn. lia.
Qed.

Lemma serial_inv_start args : serial_inv (start serial_test args).
Proof.
  cbn. split; [reflexivity|]. intros tid a pc Hl.
  rewrite list_lookup_fmap in Hl.
  destruct (args !! tid); [|discriminate Hl]. injection Hl as _ <-. auto.
Qed.

Lemma serial_inv_step c c' :
  serial_inv c → interleave ZSerial_step c c' → serial_inv c'.
Proof.
  intros Hinv [tid Hs].
  apply sched_step_inv in Hs as (a & pc & pc' & m' & Hl & Ht & ->).
  assert (Hlt : (tid < length (pool c))%nat) by (eapply lookup_lt_Some, Hl).
  destruct c as [[f ex] p]. unfold serial_inv in *. cbn in *.
  destruct pc; [| rewrite ZSerial_step_cmpxchg in Ht | |]; cbn in Ht;
    try discriminate Ht; injection Ht as <- <-; cbn.
  - (* read of the flag *)
    destruct f; cbn.
    + destruct Hinv as (w & aw & pw & Hw & Hex & Huniq).
      assert (w ≠ tid) as Hne.
      { intros ->. rewrite Hl in Hw. injection Hw as <- <-.
        destruct Hex as [[? _]|[? _]]; discriminate. }
      exists w, aw, pw. rewrite list_lookup_insert_ne by auto.
      split; [exact Hw|]. split; [exact Hex|].
      intros t' a' Ht'. destruct (decide (t' = tid)) as [->|Hne'].
      * rewrite list_lookup_insert_eq in Ht' by exact Hlt. discriminate Ht'.
      * rewrite list_lookup_insert_ne in Ht' by auto. eauto.
    + destruct Hinv as [Hex Hall]. split; [exact Hex|].
      intros t' a' pc' Ht'. destruct (decide (t' = tid)) as [->|Hne'].
      * rewrite list_lookup_insert_eq in Ht' by exact Hlt.
        injection Ht' as _ <-. auto.
      * rewrite list_lookup_insert_ne in Ht' by auto. eauto.
  - (* compare-and-swap *)
    destruct f; cbn.
    + destruct Hinv as (w & aw & pw & Hw & Hex & Huniq).
      assert (w ≠ tid) as Hne.
      { intros ->. rewrite Hl in Hw. injection Hw as <- <-.
        destruct Hex as [[? _]|[? _]]; discriminate. }
      exists w, aw, pw. rewrite list_lookup_insert_ne by auto.
      split; [exact Hw|]. split; [exact Hex|].
      intros t' a' Ht'. destruct (decide (t' = tid)) as [->|Hne'].
      * rewrite list_lookup_insert_eq in Ht' by exact Hlt. discriminate Ht'.
      * rewrite list_lookup_insert_ne in Ht' by auto. eauto.
    + destruct Hinv as [Hex Hall].
      exists tid, a, serial_call.
      rewrite list_lookup_insert_eq by exact Hlt.
      split; [reflexivity|]. split; [left; auto|].
      intros t' a' Ht'. destruct (decide (t' = tid)) as [->|Hne']; [reflexivity|].
      rewrite list_lookup_insert_ne in Ht' by auto.
      destruct (Hall _ _ _ Ht'); discriminate.
  - (* call of the traversal function *)
    destruct f; cbn.
    + destruct Hinv as (w & aw & pw & Hw & Hex & Huniq).
      pose proof (Huniq _ _ Hl) as <-.
      rewrite Hl in Hw. injection Hw as <- <-.
      destruct Hex as [[_ Hex]|[? _]]; [|discriminate].
      exists tid, a, serial_returned.
      rewrite list_lookup_insert_eq by exact Hlt.
      split; [reflexivity|]. split; [right; rewrite Hex; auto|].
      intros t' a' Ht'. destruct (decide (t' = tid)) as [->|Hne']; [reflexivity|].
      rewrite list_lookup_insert_ne in Ht' by auto. eauto.
    + destruct Hinv as [_ Hall]. destruct (Hall _ _ _ Hl); discriminate.
Qed.

Lemma serial_progress c :
  ¬ serial_finished c → ∃ c', interleave ZSerial_step c c'.
Proof.
  intros Hnf. apply not_Forall_Exists in Hnf; [|intros t; apply _].
  apply Exists_exists in Hnf as ([a pc] & Hin & Hpc). cbn in Hpc.
  apply list_elem_of_lookup in Hin as [tid Hl].
  destruct (ZSerial_step tid a pc (mem c)) as [[pc' m']|] eqn:Ht.
  - exists (Config m' (<[tid := (a, pc')]> (pool c))), tid.
    unfold sched_step. rewrite Hl, Ht. reflexivity.
  - destruct pc; cbn in Ht; try discriminate Ht. contradiction.
Qed.

(** C1: [T >= 1] threads call the entry point of one serial guard
    ([ZSerialOopsDo::oops_do] or [ZSerialUnlinkOrOopsDo::unlink_or_oops_do],
    [Arg] being what the call passes on), their steps interleaved in any
    order.  Every execution takes at most [3 * T] steps and can go on
    until every call has returned; the traversal function never runs
    more than once; and once every call has returned it has run exactly
    once, for one of the callers and with that caller's arguments, the
    flag being set. *)
Theorem serial_guard_executes_once args n c :
  args ≠ [] →
  nsteps (interleave ZSerial_step) n (start serial_test args) c →
  (n ≤ 3 * length args)%nat ∧
  (¬ serial_finished c → ∃ c', interleave ZSerial_step c c') ∧
  (length (executions (mem c)) ≤ 1)%nat ∧
  (serial_finished c →
     the_flag (mem c) = true ∧
     ∃ tid a, args !! tid = Some a ∧ executions (mem c) = [(tid, a)]).
Proof.
  intros Hargs Hn.
  pose proof (nsteps_fuel ZSerial_step serial_fuel ZSerial_step_fuel
                _ _ _ Hn) as Hfuel.
  rewrite start_fuel in Hfuel. cbn [serial_fuel] in Hfuel.
  pose proof (nsteps_args ZSerial_step _ _ _ Hn) as Hpool.
  rewrite start_args in Hpool.
  pose proof (nsteps_invariant ZSerial_step serial_inv serial_inv_step
                _ _ _ (serial_inv_start args) Hn) as Hinv.
  split; [lia|]. split; [apply serial_progress|].
  unfold serial_inv in Hinv. split.
  - destruct (the_flag (mem c)).
    + destruct Hinv as (w & aw & pw & _ & [[_ ->]|[_ ->]] & _); cbn; lia.
    + destruct Hinv as [-> _]. cbn. lia.
  - intros Hfin. unfold serial_finished in Hfin.
    rewrite Forall_lookup in Hfin.
    destruct (the_flag (mem c)).
    + split; [reflexivity|].
      destruct Hinv as (w & aw & pw & Hw & Hex & _).
      pose proof (Hfin _ _ Hw) as Hret. cbn in Hret. subst pw.
      destruct Hex as [[? _]|[_ Hex]]; [discriminate|].
      exists w, aw. split; [|exact Hex].
      rewrite <- Hpool, list_lookup_fmap, Hw. reflexivity.
    + exfalso. destruct Hinv as [_ Hall].
      destruct args as [|a0 args]; [contradiction|].
      destruct (pool c) as [|[a pc] p] eqn:Hp; [discriminate Hpool|].
      pose proof (Hfin 0%nat (a, pc) eq_refl) as Hret. cbn in Hret.
      destruct (Hall 0%nat a pc eq_refl); congruence.
Qed.

End SerialGuard.

Lemma serial_guard_executes_once_witness :
  let c := run ZSerial_step (take 7 overlapping_schedule)
               (start serial_test three_callers) in
  (7 ≤ 3 * length three_callers)%nat ∧
  (¬ serial_finished c → ∃ c', interleave ZSerial_step c c') ∧
  (length (executions (mem c)) ≤ 1)%nat ∧
  (serial_finished c →
     the_flag (mem c) = true ∧
     ∃ tid a, three_callers !! tid = Some a ∧ executions (mem c) = [(tid, a)]).
Proof.
  apply (serial_guard_executes_once three_callers 7).
  - discriminate.
  - apply (enabled_nsteps ZSerial_step (take 7 overlapping_schedule)).
    reflexivity.
Defined.

(** The schedule above ends with every call returned and the traversal
    function run once, for the thread that won the swap. *)
Lemma serial_guard_overlapping_run :
  run ZSerial_step (take 7 overlapping_schedule)
      (start serial_test three_callers) =
  Config (Shared true [(1%nat, 20)])
         [(10, serial_returned); (20, serial_returned); (30, serial_returned)].
Proof. reflexivity. Qed.

(* ===================================================================== *)
(** * The parallel guard *)
(* ===================================================================== *)

Section ParallelGuardOneCall.
Context {Member : Type} `{EqDecision Member}.
Implicit Types (it : iterator Member) (g : Member) (cl : OopClosure).

(** C2, as the code has it: a call of a parallel guard's entry point
    runs the traversal function exactly when it finds [_completed]
    unset, and a call that finds it set does nothing; either way the
    flag is set afterwards, recording that an invocation has occurred. *)
Theorem parallel_guard_completed_gates g
    (F : OopClosure → M Member unit)
    (F' : BoolObjectClosure → OopClosure → M Member unit)
    (is_alive : BoolObjectClosure) cl (cs cs' : list collaborator_call) it :
  makes_calls (F cl) cs →
  makes_calls (F' is_alive cl) cs' →
  called_by (ZParallelOopsDo_oops_do g F cl) it
    = (if flag it g then [] else cs) ∧
  called_by (ZParallelUnlinkOrOopsDo_unlink_or_oops_do g F' is_alive cl) it
    = (if flag it g then [] else cs') ∧
  flag (exec (ZParallelOopsDo_oops_do g F cl) it) g = true ∧
  flag (exec (ZParallelUnlinkOrOopsDo_unlink_or_oops_do g F' is_alive cl) it) g
    = true.
Proof.
  intros HF HF'.
  split; [|split; [|split]].
  - apply called_by_called.
    rewrite (ZParallelOopsDo_oops_do_exec g F cl cs it HF). reflexivity.
  - apply called_by_called.
    rewrite (ZParallelUnlinkOrOopsDo_exec g F' is_alive cl cs' it HF').
    reflexivity.
  - rewrite (ZParallelOopsDo_oops_do_exec g F cl cs it HF), guarded_flag.
    destruct (decide (g = g)); [reflexivity | contradiction].
  - rewrite (ZParallelUnlinkOrOopsDo_exec g F' is_alive cl cs' it HF'),
      guarded_flag.
    destruct (decide (g = g)); [reflexivity | contradiction].
Qed.

End ParallelGuardOneCall.

Lemma parallel_guard_completed_gates_witness :
  let F' := λ is_alive cl,
    invoke (StringTable_possibly_parallel_unlink_or_oops_do is_alive cl) in
  let it := exec threads_guard_call fresh in
  called_by threads_guard_call it = [] ∧
  called_by (ZParallelUnlinkOrOopsDo_unlink_or_oops_do
               ZRootsIterator._threads F' AlwaysTrueClosure 7) it = [] ∧
  flag (exec threads_guard_call it) ZRootsIterator._threads = true ∧
  flag (exec (ZParallelUnlinkOrOopsDo_unlink_or_oops_do
                ZRootsIterator._threads F' AlwaysTrueClosure 7) it)
       ZRootsIterator._threads = true.
Proof.
  intros F' it.
  apply (parallel_guard_completed_gates ZRootsIterator._threads
           ZRootsIterator.do_threads F' AlwaysTrueClosure 7
           [Threads_possibly_parallel_oops_do true 7 None]
           [StringTable_possibly_parallel_unlink_or_oops_do AlwaysTrueClosure 7]
           it).
  - intros it'. reflexivity.
  - intros it'. reflexivity.
Defined.

(** C2 as stated fails: the first call of the guard runs the traversal
    function and sets [_completed]; the second call on the same iterator
    finds the flag set and runs nothing. *)
Lemma parallel_guard_second_call_skipped :
  called_by threads_guard_call fresh =
    [Threads_possibly_parallel_oops_do true 7 None] ∧
  flag (exec threads_guard_call fresh) ZRootsIterator._threads = true ∧
  called_by threads_guard_call (exec threads_guard_call fresh) = [].
Proof. repeat split. Qed.

Lemma snoc_not_nil {A} (l : list A) (x : A) : l ++ [x] ≠ [].
Proof. destruct l; discriminate. Qed.

Section ParallelGuard.
Context {Arg : Type}.
Implicit Types (c : config Arg parallel_pc) (args : list Arg).

Lemma ZParallel_step_fuel tid (a : Arg) pc m pc' m' :
  ZParallel_step tid a pc m = Some (pc', m') →
  (parallel_fuel pc' < parallel_fuel pc)%nat.
Proof.
  destruct pc; cbn; intros Hs; try discriminate Hs; injection Hs as <- <-;
    try destruct (the_flag m); cbn; lia.
Qed.

Lemma parallel_inv_start args : parallel_inv (start parallel_test args).
Proof.
  split; [|split].
  - cbn. rewrite length_fmap. induction args as [|a args IH]; cbn; lia.
  - discriminate.
  - intros tid a pc Hl. cbn in Hl. rewrite list_lookup_fmap in Hl.
    destruct (args !! tid); [|discriminate Hl]. injection Hl as _ <-. exact I.
Qed.

Lemma parallel_inv_step c c' :
  parallel_inv c → interleave ZParallel_step c c' → parallel_inv c'.
Proof.
  intros (Hcount & Hflag & Hall) [tid Hs].
  apply sched_step_inv in Hs as (a & pc & pc' & m' & Hl & Ht & ->).
  assert (Hlt : (tid < length (pool c))%nat) by (eapply lookup_lt_Some, Hl).
  pose proof (sum_list_fmap_insert (λ t, before_call t.2) (pool c) tid
                (a, pc) (a, pc') Hl) as Hsum.
  pose proof (Hall _ _ _ Hl) as Hme.
  assert (Hothers : ∀ t' a' q, t' ≠ tid →
            <[tid := (a, pc')]> (pool c) !! t' = Some (a', q) →
            pool c !! t' = Some (a', q)).
  { intros t' a' q Hne Hq. rewrite list_lookup_insert_ne in Hq by auto.
    exact Hq. }
  destruct c as [[f ex] p]. unfold parallel_inv. cbn in *.
  rewrite length_insert.
  destruct pc; cbn in Ht; try discriminate Ht; injection Ht as <- <-;
    cbn in *.
  - (* first read of the flag *)
    split; [destruct f; cbn in *; lia|]. split; [exact Hflag|].
    intros t' a' q Hq. destruct (decide (t' = tid)) as [->|Hne].
    + rewrite list_lookup_insert_eq in Hq by exact Hlt.
      injection Hq as _ <-. destruct f; cbn; auto.
    + apply (Hall t' a' q), Hothers; assumption.
  - (* call of the traversal function *)
    split; [rewrite length_app; cbn; lia|].
    split; [intros _; apply snoc_not_nil|].
    intros t' a' q Hq. destruct (decide (t' = tid)) as [->|Hne].
    + rewrite list_lookup_insert_eq in Hq by exact Hlt.
      injection Hq as _ <-. apply snoc_not_nil.
    + pose proof (Hall t' a' q (Hothers _ _ _ Hne Hq)) as Hq'.
      destruct q; auto; apply snoc_not_nil.
  - (* second read of the flag *)
    split; [destruct f; cbn in *; lia|]. split; [exact Hflag|].
    intros t' a' q Hq. destruct (decide (t' = tid)) as [->|Hne].
    + rewrite list_lookup_insert_eq in Hq by exact Hlt.
      injection Hq as _ <-. destruct f; cbn; auto.
    + apply (Hall t' a' q), Hothers; assumption.
  - (* write of the flag *)
    split; [lia|]. split; [intros _; exact Hme|].
    intros t' a' q Hq. destruct (decide (t' = tid)) as [->|Hne].
    + rewrite list_lookup_insert_eq in Hq by exact Hlt.
      injection Hq as _ <-. reflexivity.
    + pose proof (Hall t' a' q (Hothers _ _ _ Hne Hq)) as Hq'.
      destruct q; auto.
Qed.

Lemma parallel_progress c :
  ¬ parallel_finished c → ∃ c', interleave ZParallel_step c c'.
Proof.
  intros Hnf. apply not_Forall_Exists in Hnf; [|intros t; apply _].
  apply Exists_exists in Hnf as ([a pc] & Hin & Hpc). cbn in Hpc.
  apply list_elem_of_lookup in Hin as [tid Hl].
  destruct (ZParallel_step tid a pc (mem c)) as [[pc' m']|] eqn:Ht.
  - exists (Config m' (<[tid := (a, pc')]> (pool c))), tid.
    unfold sched_step. rewrite Hl, Ht. reflexivity.
  - destruct pc; cbn in Ht; try discriminate Ht. contradiction.
Qed.

(** X15: [T >= 1] threads call the entry point of one parallel guard, their
    steps interleaved in any order.  Every execution takes at most
    [4 * T] steps and can go on until every call has returned; the
    traversal function runs at most [T] times; and once every call has
    returned it has run at least once and the flag is set. *)
Lemma parallel_guard_executions args n c :
  args ≠ [] →
  nsteps (interleave ZParallel_step) n (start parallel_test args) c →
  (n ≤ 4 * length args)%nat ∧
  (¬ parallel_finished c → ∃ c', interleave ZParallel_step c c') ∧
  (length (executions (mem c)) ≤ length args)%nat ∧
  (parallel_finished c →
     the_flag (mem c) = true ∧ (1 ≤ length (executions (mem c)))%nat).
Proof.
  intros Hargs Hn.
  pose proof (nsteps_fuel ZParallel_step parallel_fuel ZParallel_step_fuel
                _ _ _ Hn) as Hfuel.
  rewrite start_fuel in Hfuel. cbn [parallel_fuel] in Hfuel.
  pose proof (nsteps_args ZParallel_step _ _ _ Hn) as Hpool.
  rewrite start_args in Hpool.
  pose proof (nsteps_invariant ZParallel_step parallel_inv parallel_inv_step
                _ _ _ (parallel_inv_start args) Hn)
    as (Hcount & Hflag & Hall).
  assert (Hlen : length (pool c) = length args)
    by (rewrite <- Hpool, length_fmap; reflexivity).
  split; [lia|]. split; [apply parallel_progress|]. split; [lia|].
  intros Hfin. unfold parallel_finished in Hfin.
  rewrite Forall_lookup in Hfin.
  destruct args as [|a0 args]; [contradiction|].
  destruct (pool c) as [|[a pc] p] eqn:Hp; [discriminate Hpool|].
  pose proof (Hfin 0%nat (a, pc) eq_refl) as Hret. cbn in Hret. subst pc.
  pose proof (Hall 0%nat a parallel_returned eq_refl) as Hset. cbn in Hset.
  split; [exact Hset|]. specialize (Hflag Hset).
  destruct (executions (mem c)); [contradiction | cbn; lia].
Qed.

End ParallelGuard.

(** Calls of a parallel guard that overlap all run the traversal function;
    calls that start after one has returned run nothing. *)
Lemma parallel_guard_overlapping_run :
  executions (mem (run ZParallel_step overlapping_schedule
                       (start parallel_test three_callers))) =
    [(1%nat, 20); (0%nat, 10); (2%nat, 30)] ∧
  executions (mem (run ZParallel_step one_after_another
                       (start parallel_test three_callers))) =
    [(0%nat, 10)] ∧
  enabled ZParallel_step overlapping_schedule
          (start parallel_test three_callers) = true ∧
  enabled ZParallel_step one_after_another
          (start parallel_test three_callers) = true.
Proof. repeat split. Qed.

(** A call that runs alone goes through the interleaving model as the
    one-call model of the guards says: the traversal function runs exactly
    when the flag was unset, and the flag is set afterwards. *)
Lemma guards_alone (a : OopClosure) (b : bool) :
  run ZSerial_step [0; 0; 0]%nat (Config (Shared b []) [(a, serial_test)]) =
    Config (Shared true (if b then [] else [(0%nat, a)]))
           [(a, serial_returned)] ∧
  run ZParallel_step [0; 0; 0; 0]%nat
      (Config (Shared b []) [(a, parallel_test)]) =
    Config (Shared true (if b then [] else [(0%nat, a)]))
           [(a, parallel_returned)].
Proof. destruct b; split; reflexivity. Qed.

(* ===================================================================== *)
(** * Further properties of the handle functions *)
(* ===================================================================== *)

Section HandleResolution.
Import JNIHandles.

(** The address of the slot a non-null handle designates. *)
Lemma resolve_impl_same_slot (g : bool) (s s' : vm) (h : jobject) :
  thread_in_native s' = thread_in_native s →
  slots s' !! (if is_jweak h then h - weak_tag_value else h)
    = slots s !! (if is_jweak h then h - weak_tag_value else h) →
  resolve_impl g s' h = resolve_impl g s h.
Proof.
  intros Ht Hs. unfold resolve_impl, current_thread_in_native.
  rewrite Ht. destruct (negb (h =? NULL)); [|reflexivity]. cbn.
  destruct (negb (thread_in_native s)); [|reflexivity]. cbn.
  destruct (is_jweak h) eqn:Hw.
  - unfold resolve_jweak, jweak_ref. rewrite (jweak_ref_addr_weak h Hw). cbn.
    unfold JNIHandles.load. rewrite Hs. reflexivity.
  - rewrite (jobject_ref_strong h Hw). cbn.
    unfold JNIHandles.load. rewrite Hs. reflexivity.
Qed.

(** X1: whatever [resolve] returns normally, [resolve_external_guard]
    returns too; and [resolve_external_guard] returns normally where
    [resolve] does not only by answering null where [resolve] fails the
    assertion [Invalid JNI handle]. *)
Theorem resolve_external_guard_relaxes_resolve (s : vm) (h : jobject) (v : oop) :
  (resolve s h = Ok v → resolve_external_guard s h = Ok v) ∧
  (resolve_external_guard s h = Ok v →
     resolve s h = Ok v ∨
     (v = NULL ∧ resolve s h = AssertionFailure "Invalid JNI handle")).
Proof.
  unfold resolve, resolve_external_guard, resolve_impl.
  destruct (negb (h =? NULL)); [|split; auto]. cbn.
  destruct (negb (current_thread_in_native s)); cbn; [|split; auto].
  destruct (is_jweak h) eqn:Hw; [split; auto|].
  rewrite (jobject_ref_strong h Hw). cbn.
  destruct (JNIHandles.load s h) as [r| |]; cbn; [|split; auto|split; auto].
  destruct (r =? NULL) eqn:Hr; cbn.
  - split; [discriminate|]. intros [= <-]. right.
    apply Z.eqb_eq in Hr. auto.
  - split; auto.
Qed.

(** X2: [resolve_non_null] returns an object exactly when [resolve] returns
    that object and it is not null; in particular its result is never
    null. *)
Theorem resolve_non_null_iff (s : vm) (h : jobject) (v : oop) :
  resolve_non_null s h = Ok v ↔ v ≠ NULL ∧ resolve s h = Ok v.
Proof.
  unfold resolve_non_null, resolve.
  destruct (h =? NULL) eqn:Hh; cbn.
  - split; [discriminate|]. intros [Hv [= <-]]. contradiction.
  - destruct (resolve_impl false s h) as [r| |]; cbn;
      try (split; [discriminate | intros [_ H']; discriminate H']).
    destruct (r =? NULL) eqn:Hr; cbn.
    + apply Z.eqb_eq in Hr. split; [discriminate|].
      intros [Hv [= <-]]. contradiction.
    + apply Z.eqb_neq in Hr. split.
      * intros [= <-]. auto.
      * intros [_ [= <-]]. reflexivity.
Qed.

(** X3: [resolve_non_null] fails its own assertions on a null handle and
    on a weak handle whose referent was cleared; on a strong handle whose
    slot holds null it fails the assertion of [resolve_impl] first. *)
Theorem resolve_non_null_failures (s : vm) (h : jobject)
    (Hthread : current_thread_in_native s = false) :
  resolve_non_null s NULL
    = AssertionFailure "JNI handle should not be null" ∧
  (is_jweak h = true → slots s !! (h - weak_tag_value) = Some NULL →
     resolve_non_null s h = AssertionFailure "NULL read from jni handle") ∧
  (h ≠ NULL → is_jweak h = false → slots s !! h = Some NULL →
     resolve_non_null s h = AssertionFailure "Invalid JNI handle").
Proof.
  split; [reflexivity|]. split.
  - intros Hw Hs. unfold resolve_non_null.
    rewrite (neqb_NULL h (is_jweak_not_null h Hw)). cbn.
    rewrite (resolve_impl_weak false s h Hthread Hw).
    rewrite (resolve_jweak_slot s h NULL Hw Hs). reflexivity.
  - intros Hn Hw Hs. unfold resolve_non_null.
    rewrite (neqb_NULL h Hn). cbn.
    rewrite (resolve_impl_strong false s h NULL Hn Hthread Hw Hs).
    reflexivity.
Qed.

Lemma resolve_non_null_failures_witness :
  resolve_non_null sample_vm 17
    = AssertionFailure "NULL read from jni handle" ∧
  resolve_non_null sample_vm_destroyed 8
    = AssertionFailure "Invalid JNI handle".
Proof.
  split.
  - apply (proj1 (proj2 (resolve_non_null_failures sample_vm 17 eq_refl)));
      reflexivity.
  - apply (proj2 (proj2 (resolve_non_null_failures
                           sample_vm_destroyed 8 eq_refl)));
      [discriminate | reflexivity | reflexivity].
Defined.

(** X4: a destroyed local handle resolves to null through
    [resolve_external_guard]. *)
Theorem destroyed_handle_resolves_null_externally
    (s : vm) (h : jobject) (v : oop) :
  h ≠ NULL → is_jweak h = false → slots s !! h = Some v →
  current_thread_in_native s = false →
  ∃ s1, destroy_local s h = Ok s1 ∧ resolve_external_guard s1 h = Ok NULL.
Proof.
  intros Hn Hw Hs Ht.
  set (s1 := VM (<[h := NULL]> (slots s)) (thread_in_native s)).
  assert (Hs1 : slots s1 !! h = Some NULL) by apply lookup_insert_eq.
  assert (Ht1 : current_thread_in_native s1 = false) by exact Ht.
  exists s1. split; [apply (destroy_local_strong s h v Hn Hw Hs)|].
  unfold resolve_external_guard. rewrite (neqb_NULL h Hn).
  rewrite (resolve_impl_strong true s1 h NULL Hn Ht1 Hw Hs1). reflexivity.
Qed.

Lemma destroyed_handle_resolves_null_externally_witness :
  ∃ s1, destroy_local sample_vm 8 = Ok s1 ∧
        resolve_external_guard s1 8 = Ok NULL.
Proof.
  apply (destroyed_handle_resolves_null_externally sample_vm 8 4096);
    [discriminate | reflexivity | reflexivity | reflexivity].
Defined.

(** X5: [destroy_local] touches nothing but the slot of the handle it is
    given: the thread state and every other slot stay as they were, and
    every handle designating another slot resolves as before. *)
Theorem destroy_local_frame (s s1 : vm) (h : jobject) :
  destroy_local s h = Ok s1 →
  thread_in_native s1 = thread_in_native s ∧
  (∀ addr : Z, addr ≠ h → slots s1 !! addr = slots s !! addr) ∧
  (∀ h' : jobject,
     (if is_jweak h' then h' - weak_tag_value else h') ≠ h →
     resolve s1 h' = resolve s h' ∧
     resolve_external_guard s1 h' = resolve_external_guard s h' ∧
     resolve_non_null s1 h' = resolve_non_null s h').
Proof.
  intros Hd.
  assert (Hframe : thread_in_native s1 = thread_in_native s ∧
                   ∀ addr : Z, addr ≠ h → slots s1 !! addr = slots s !! addr).
  { unfold destroy_local in Hd. destruct (negb (h =? NULL)).
    - destruct (is_jweak h) eqn:Hw; cbn in Hd; [discriminate Hd|].
      rewrite (jobject_ref_strong h Hw) in Hd. cbn in Hd.
      unfold JNIHandles.store in Hd.
      destruct (slots s !! (h : Z)); [|discriminate Hd].
      injection Hd as <-. cbn. split; [reflexivity|].
      intros addr Hne. apply lookup_insert_ne. auto.
    - injection Hd as <-. auto. }
  destruct Hframe as [Ht Hs]. split; [exact Ht|]. split; [exact Hs|].
  intros h' Hne.
  assert (Himpl : ∀ g, resolve_impl g s1 h' = resolve_impl g s h').
  { intros g. apply resolve_impl_same_slot; [exact Ht|]. apply Hs, Hne. }
  unfold resolve, resolve_external_guard, resolve_non_null.
  rewrite !Himpl. auto.
Qed.

Lemma destroy_local_frame_witness :
  thread_in_native sample_vm_destroyed = thread_in_native sample_vm ∧
  resolve sample_vm_destroyed 17 = resolve sample_vm 17.
Proof.
  pose proof (destroy_local_frame sample_vm sample_vm_destroyed 8 eq_refl)
    as (H1 & _ & H3).
  split; [exact H1|]. apply (H3 17). discriminate.
Defined.

(** X6: [destroy_local] does nothing on a null handle, whatever the
    state, and fails the assertion [Invalid JNI local handle] on a
    weak-tagged handle. *)
Theorem destroy_local_edge_cases (s : vm) (h : jobject) :
  destroy_local s NULL = Ok s ∧
  (is_jweak h = true →
     destroy_local s h = AssertionFailure "Invalid JNI local handle").
Proof.
  split; [reflexivity|]. intros Hw. unfold destroy_local.
  rewrite (neqb_NULL h (is_jweak_not_null h Hw)), Hw. reflexivity.
Qed.

(** X7: tagging round trip.  Adding [weak_tag_value] to a slot address
    aligned to [weak_tag_alignment] gives a weak handle whose slot is that
    address again; the untagged address is a strong handle to the same
    slot; and both resolve to what the slot holds. *)
Theorem weak_tag_round_trip (s : vm) (a : Z) :
  a mod weak_tag_alignment = 0 →
  is_jweak a = false ∧
  is_jweak (a + weak_tag_value) = true ∧
  jweak_ref_addr (a + weak_tag_value) = Ok a ∧
  jobject_ref a = Ok a ∧
  resolve_jweak s (a + weak_tag_value) = JNIHandles.load s a.
Proof.
  intros Ha. change weak_tag_alignment with 2 in Ha.
  assert (Hs : is_jweak a = false).
  { rewrite is_jweak_low_bit, Zodd_mod, Ha. reflexivity. }
  assert (Hw : is_jweak (a + weak_tag_value) = true).
  { rewrite is_jweak_low_bit. unfold weak_tag_value.
    rewrite Z.odd_add, <- is_jweak_low_bit, Hs. reflexivity. }
  assert (Hr : jweak_ref_addr (a + weak_tag_value) = Ok a).
  { rewrite (jweak_ref_addr_weak _ Hw). f_equal. lia. }
  split; [exact Hs|]. split; [exact Hw|]. split; [exact Hr|].
  split; [apply jobject_ref_strong, Hs|].
  unfold resolve_jweak, jweak_ref. rewrite Hr. reflexivity.
Qed.

Lemma weak_tag_round_trip_witness :
  is_jweak 16 = false ∧
  is_jweak (16 + weak_tag_value) = true ∧
  jweak_ref_addr (16 + weak_tag_value) = Ok 16 ∧
  jobject_ref 16 = Ok 16 ∧
  resolve_jweak sample_vm (16 + weak_tag_value) = JNIHandles.load sample_vm 16.
Proof. apply (weak_tag_round_trip sample_vm 16). reflexivity. Defined.

(** X8: of the two slot accessors exactly one accepts a given handle:
    [jobject_ref] fails its precondition on a weak-tagged handle and
    [jweak_ref_addr] on an untagged one. *)
Theorem slot_accessors_exclusive (h : jobject) :
  (is_jweak h = false ∧ jobject_ref h = Ok h ∧
   jweak_ref_addr h = AssertionFailure "precondition") ∨
  (is_jweak h = true ∧ jweak_ref_addr h = Ok (h - weak_tag_value) ∧
   jobject_ref h = AssertionFailure "precondition").
Proof.
  unfold jobject_ref, jweak_ref_addr.
  destruct (is_jweak h); [right | left]; repeat split.
Qed.

End HandleResolution.

(* ===================================================================== *)
(** * Further properties of the iterators, one call at a time *)
(* ===================================================================== *)

Section GuardedFlags.
Context {Member : Type} `{EqDecision Member}.
Implicit Types (it : iterator Member) (g : Member).

Lemma guarded_all_flag a cs (gs : list Member) it g :
  flag (guarded_all a cs gs it) g = true ↔ flag it g = true ∨ g ∈ gs.
Proof.
  revert it. induction gs as [|g0 gs IH]; intros it; cbn.
  - rewrite elem_of_nil. tauto.
  - unfold guarded_all in IH. rewrite IH, guarded_flag, elem_of_cons.
    destruct (decide (g = g0)) as [->|Hne].
    + split; intros _; [right; left; reflexivity | left; reflexivity].
    + split; [intros [?|?]; auto | intros [?|[?|?]]; auto; contradiction].
Qed.

Lemma guarded_all_flag_elem a cs (gs : list Member) it g :
  g ∈ gs → flag (guarded_all a cs gs it) g = true.
Proof. intros Hin. apply guarded_all_flag. auto. Qed.

Lemma guarded_all_flag_other a cs (gs : list Member) it g :
  g ∉ gs → flag (guarded_all a cs gs it) g = flag it g.
Proof.
  intros Hnin. pose proof (guarded_all_flag a cs gs it g) as Hiff.
  destruct (flag it g) eqn:E.
  - apply Hiff. auto.
  - destruct (flag (guarded_all a cs gs it) g); [|reflexivity].
    destruct (proj1 Hiff eq_refl); [discriminate | contradiction].
Qed.

Lemma concat_fmap_nil {A} (f : Member → list A) (gs : list Member) :
  (∀ g, g ∈ gs → f g = []) → concat (f <$> gs) = [].
Proof.
  induction gs as [|g gs IH]; intros Hf; cbn; [reflexivity|].
  rewrite (Hf g) by (apply elem_of_cons; auto). cbn.
  apply IH. intros g' Hg'. apply Hf, elem_of_cons. auto.
Qed.

End GuardedFlags.

Section StrongRootsAgain.
Import ZRootsIterator.
Variable globals : ZGlobals.
Variable kind : member → guard_kind.

(** X9: after a call of [ZRootsIterator::oops_do] the flag of a guard is
    set exactly if it was set before or the call went to that guard; the
    flags of the guards not gone to are as before. *)
Theorem ZRootsIterator_oops_do_flags
    (cl : OopClosure) (v : bool) (it : iterator member) (g : member) :
  (flag (exec (oops_do globals kind cl v) it) g = true ↔
     flag it g = true ∨ g ∈ dispatch_list globals v) ∧
  (g ∉ dispatch_list globals v →
     flag (exec (oops_do globals kind cl v) it) g = flag it g).
Proof.
  rewrite oops_do_exec. split.
  - apply guarded_all_flag.
  - apply guarded_all_flag_other.
Qed.

(** X10: on one iterator a second call of [ZRootsIterator::oops_do] runs
    no traversal function again, whatever visitor it is given: its only
    collaborator call, if any, is that of JVMTI weak export, made when
    [ZWeakRoots] is on, the second call asks for it, the first did not,
    and its guard was unclaimed. *)
Theorem ZRootsIterator_oops_do_twice
    (cl1 cl2 : OopClosure) (v1 v2 : bool) (it : iterator member) :
  called_by (oops_do globals kind cl2 v2)
            (exec (oops_do globals kind cl1 v1) it) =
    if ZWeakRoots globals && v2 && negb v1
       && negb (flag it _jvmti_weak_export)
    then calls_of _jvmti_weak_export cl2 else [].
Proof.
  rewrite oops_do_called, oops_do_exec.
  set (it1 := guarded_all _ _ (dispatch_list globals v1) it).
  assert (Hstrong : ∀ g, g ∈ strong_groups → flag it1 g = true).
  { intros g Hg. apply guarded_all_flag_elem. unfold dispatch_list.
    apply elem_of_app. auto. }
  unfold dispatch_list at 1. rewrite fmap_app, concat_app.
  rewrite (concat_fmap_nil _ strong_groups)
    by (intros g Hg; rewrite (Hstrong g Hg); reflexivity).
  cbn [app].
  destruct (ZWeakRoots globals) eqn:HZ; cbn [negb andb].
  - destruct v2; cbn [andb]; [|reflexivity].
    destruct v1; cbn [negb andb fmap list_fmap concat].
    + unfold it1.
      rewrite guarded_all_flag_elem; [reflexivity|].
      unfold dispatch_list. rewrite HZ. cbn. compute_done.
    + unfold it1. rewrite guarded_all_flag_other.
      * destruct (flag it _jvmti_weak_export); reflexivity.
      * unfold dispatch_list. rewrite HZ. cbn. compute_done.
  - apply concat_fmap_nil. intros g Hg.
    unfold it1. rewrite guarded_all_flag_elem; [reflexivity|].
    unfold dispatch_list. rewrite HZ. cbn [negb]. apply elem_of_app. auto.
Qed.

End StrongRootsAgain.

Section WeakRootsAgain.
Import ZWeakRootsIterator.
Variable globals : ZGlobals.
Variable kind : member → guard_kind.

(** X11: on one iterator a second call of
    [ZWeakRootsIterator::unlink_or_oops_do] runs no traversal function,
    even with another liveness predicate and another visitor, and so does
    a call of [oops_do] after it. *)
Theorem ZWeakRootsIterator_unlink_or_oops_do_twice
    (is_alive1 is_alive2 : BoolObjectClosure) (cl1 cl2 : OopClosure)
    (it : iterator member) :
  called_by (unlink_or_oops_do globals kind is_alive2 cl2)
            (exec (unlink_or_oops_do globals kind is_alive1 cl1) it) = [] ∧
  called_by (oops_do globals kind cl2)
            (exec (unlink_or_oops_do globals kind is_alive1 cl1) it) = [].
Proof.
  assert (Hgen : ∀ is_alive2,
    called_by (unlink_or_oops_do globals kind is_alive2 cl2)
              (exec (unlink_or_oops_do globals kind is_alive1 cl1) it) = []).
  { intros ia. apply called_by_called.
    rewrite !unlink_or_oops_do_exec.
    rewrite (guarded_all_called _ _ _ _ (weak_dispatch_list_NoDup globals)).
    rewrite concat_fmap_nil; [reflexivity|].
    intros g Hg. rewrite guarded_all_flag_elem by exact Hg. reflexivity. }
  split; [apply Hgen | apply (Hgen AlwaysTrueClosure)].
Qed.

End WeakRootsAgain.

Section OtherIterators.
Variable globals : ZGlobals.

Lemma ZConcurrentWeakRootsIterator_oops_do_exec
    (kind : ZConcurrentWeakRootsIterator.member → guard_kind)
    (par : OopClosure → M ZConcurrentWeakRootsIterator.member unit)
    (cl : OopClosure) (cs : list collaborator_call) it :
  makes_calls (par cl) cs →
  exec (ZConcurrentWeakRootsIterator.oops_do globals kind par cl) it =
    if ZWeakRoots globals && ZConcurrentJNIWeakGlobalHandles globals
    then guarded ZConcurrentWeakRootsIterator._jni_weak_handles
                 (oops_do_args cl) cs it
    else it.
Proof.
  intros Hpar. unfold ZConcurrentWeakRootsIterator.oops_do.
  destruct (ZWeakRoots globals), (ZConcurrentJNIWeakGlobalHandles globals);
    cbn [andb]; try reflexivity.
  apply guard_oops_do_exec. exact Hpar.
Qed.

(** X12: [ZConcurrentWeakRootsIterator::oops_do] leaves the iterator
    untouched unless both [ZWeakRoots] and
    [ZConcurrentJNIWeakGlobalHandles] are on; with both on it goes to the
    guard of the weak JNI handles, and the scan of the weak storage runs
    exactly if that guard was unclaimed. *)
Theorem ZConcurrentWeakRootsIterator_oops_do_gated
    (kind : ZConcurrentWeakRootsIterator.member → guard_kind)
    (par : OopClosure → M ZConcurrentWeakRootsIterator.member unit)
    (cl : OopClosure) (cs : list collaborator_call) it :
  makes_calls (par cl) cs →
  let pass := ZConcurrentWeakRootsIterator.oops_do globals kind par cl in
  (ZWeakRoots globals && ZConcurrentJNIWeakGlobalHandles globals = false →
     exec pass it = it) ∧
  (ZWeakRoots globals && ZConcurrentJNIWeakGlobalHandles globals = true →
     dispatched_by pass it =
       [(ZConcurrentWeakRootsIterator._jni_weak_handles, oops_do_args cl)] ∧
     called_by pass it =
       (if flag it ZConcurrentWeakRootsIterator._jni_weak_handles
        then [] else cs) ∧
     called_by pass (exec pass it) = []).
Proof.
  intros Hpar pass. unfold pass.
  split; intros Hsw.
  - rewrite (ZConcurrentWeakRootsIterator_oops_do_exec _ _ _ cs it Hpar), Hsw.
    reflexivity.
  - split; [|split].
    + apply dispatched_by_entered.
      rewrite (ZConcurrentWeakRootsIterator_oops_do_exec _ _ _ cs it Hpar), Hsw.
      reflexivity.
    + apply called_by_called.
      rewrite (ZConcurrentWeakRootsIterator_oops_do_exec _ _ _ cs it Hpar), Hsw.
      reflexivity.
    + apply called_by_called.
      rewrite (ZConcurrentWeakRootsIterator_oops_do_exec _ _ _ cs it Hpar), Hsw.
      rewrite (ZConcurrentWeakRootsIterator_oops_do_exec _ _ _ cs _ Hpar), Hsw.
      rewrite (guarded_called _ _ _ (guarded _ _ _ it)), guarded_flag.
      destruct (decide _); [reflexivity | contradiction].
Qed.

Lemma unlink_or_oops_do_dispatched
    (kind : ZWeakRootsIterator.member → guard_kind)
    (is_alive : BoolObjectClosure) (cl : OopClosure) it :
  dispatched_by
    (ZWeakRootsIterator.unlink_or_oops_do globals kind is_alive cl) it =
  (λ g, (g, unlink_or_oops_do_args is_alive cl)) <$>
    ZWeakRootsIterator.weak_dispatch_list globals.
Proof.
  apply dispatched_by_entered. rewrite unlink_or_oops_do_exec.
  apply guarded_all_entered.
Qed.

(** X13: whichever way the two switches are set, the guard of the weak JNI
    handles is gone to by exactly one of the three passes (strong roots,
    weak roots, concurrent weak roots); those of trace and of the string
    table by exactly one of the strong and the weak pass; that of the
    symbol table by the weak pass; and that of JVMTI weak export by exactly
    one of the strong and the weak pass, or by both when [ZWeakRoots] is
    on and the strong pass is asked to visit it. *)
Theorem weak_groups_across_passes
    (ks : ZRootsIterator.member → guard_kind)
    (kw : ZWeakRootsIterator.member → guard_kind)
    (kc : ZConcurrentWeakRootsIterator.member → guard_kind)
    (par : OopClosure → M ZConcurrentWeakRootsIterator.member unit)
    (cs : list collaborator_call)
    (is_alive : BoolObjectClosure) (cl : OopClosure) (v : bool)
    its itw itc :
  makes_calls (par cl) cs →
  let ds := dispatched_by (ZRootsIterator.oops_do globals ks cl v) its in
  let dw := dispatched_by
              (ZWeakRootsIterator.unlink_or_oops_do globals kw is_alive cl)
              itw in
  let dc := dispatched_by
              (ZConcurrentWeakRootsIterator.oops_do globals kc par cl) itc in
  (times_entered ZRootsIterator._jni_weak_handles ds
   + times_entered ZWeakRootsIterator._jni_weak_handles dw
   + times_entered ZConcurrentWeakRootsIterator._jni_weak_handles dc = 1)%nat ∧
  (times_entered ZRootsIterator._trace ds
   + times_entered ZWeakRootsIterator._trace dw = 1)%nat ∧
  (times_entered ZRootsIterator._string_table ds
   + times_entered ZWeakRootsIterator._string_table dw = 1)%nat ∧
  (times_entered ZWeakRootsIterator._symbol_table dw = 1)%nat ∧
  (times_entered ZRootsIterator._jvmti_weak_export ds
   + times_entered ZWeakRootsIterator._jvmti_weak_export dw
   = if ZWeakRoots globals && v then 2 else 1)%nat.
Proof.
  intros Hpar ds dw dc.
  assert (Hc : dc = if ZWeakRoots globals
                         && ZConcurrentJNIWeakGlobalHandles globals
                    then [(ZConcurrentWeakRootsIterator._jni_weak_handles,
                           oops_do_args cl)]
                    else []).
  { apply dispatched_by_entered.
    rewrite (ZConcurrentWeakRootsIterator_oops_do_exec kc par cl cs itc Hpar).
    destruct (_ && _); [reflexivity | symmetry; apply app_nil_r]. }
  rewrite Hc. unfold ds, dw.
  rewrite oops_do_dispatched, unlink_or_oops_do_dispatched.
  unfold ZRootsIterator.dispatch_list, ZWeakRootsIterator.weak_dispatch_list.
  destruct (ZWeakRoots globals), (ZConcurrentJNIWeakGlobalHandles globals), v;
    vm_compute; repeat split.
Qed.

(** X14: a call of [ZThreadRootsIterator::oops_do] makes, its guard
    permitting, the very collaborator call the strong pass makes for its
    thread group, and a second call on the same iterator makes none. *)
Theorem ZThreadRootsIterator_oops_do_once
    (kind : ZThreadRootsIterator.member → guard_kind)
    (cl cl' : OopClosure) it :
  called_by (ZThreadRootsIterator.oops_do kind cl) it =
    (if flag it ZThreadRootsIterator._threads then []
     else ZRootsIterator.calls_of ZRootsIterator._threads cl) ∧
  called_by (ZThreadRootsIterator.oops_do kind cl')
            (exec (ZThreadRootsIterator.oops_do kind cl) it) = [].
Proof.
  assert (Hexec : ∀ c it',
    exec (ZThreadRootsIterator.oops_do kind c) it' =
      guarded ZThreadRootsIterator._threads (oops_do_args c)
              [Threads_possibly_parallel_oops_do true c None] it').
  { intros c it'. apply guard_oops_do_exec. intros x. reflexivity. }
  split; apply called_by_called; rewrite !Hexec.
  - reflexivity.
  - rewrite (guarded_called _ _ _ (guarded _ _ _ it)), guarded_flag.
    destruct (decide _); [reflexivity | contradiction].
Qed.

End OtherIterators.

Lemma ZConcurrentWeakRootsIterator_oops_do_gated_witness :
  let pass := ZConcurrentWeakRootsIterator.oops_do
                both_switches every_guard_serial one_call_scan 7 in
  dispatched_by pass fresh =
    [(ZConcurrentWeakRootsIterator._jni_weak_handles, oops_do_args 7)] ∧
  called_by pass fresh = [JNIHandles_weak_oops_do_1 7] ∧
  called_by pass (exec pass fresh) = [].
Proof.
  apply (ZConcurrentWeakRootsIterator_oops_do_gated both_switches
           every_guard_serial one_call_scan 7 [JNIHandles_weak_oops_do_1 7]
           fresh).
  - intros it. reflexivity.
  - reflexivity.
Defined.

Lemma weak_groups_across_passes_witness :
  (times_entered ZRootsIterator._jni_weak_handles
     (dispatched_by (ZRootsIterator.oops_do both_switches every_guard_serial
                       7%Z true) fresh)
   + times_entered ZWeakRootsIterator._jni_weak_handles
       (dispatched_by (ZWeakRootsIterator.unlink_or_oops_do both_switches
                         every_guard_serial AlwaysTrueClosure 7%Z) fresh)
   + times_entered ZConcurrentWeakRootsIterator._jni_weak_handles
       (dispatched_by (ZConcurrentWeakRootsIterator.oops_do both_switches
                         every_guard_serial one_call_scan 7%Z) fresh) = 1)%nat.
Proof.
  apply (weak_groups_across_passes both_switches every_guard_serial
           every_guard_serial every_guard_serial one_call_scan
           [JNIHandles_weak_oops_do_1 7] AlwaysTrueClosure 7 true
           fresh fresh fresh).
  intros it. reflexivity.
Defined.

(* ===================================================================== *)
(** * Further properties of the guards under interleaving *)
(* ===================================================================== *)

Lemma parallel_guard_executions_witness :
  let c := run ZParallel_step overlapping_schedule
               (start parallel_test three_callers) in
  (12 ≤ 4 * length three_callers)%nat ∧
  (¬ parallel_finished c → ∃ c', interleave ZParallel_step c c') ∧
  (length (executions (mem c)) ≤ length three_callers)%nat ∧
  (parallel_finished c →
     the_flag (mem c) = true ∧ (1 ≤ length (executions (mem c)))%nat).
Proof.
  apply (parallel_guard_executions three_callers 12).
  - discriminate.
  - apply (enabled_nsteps ZParallel_step overlapping_schedule). reflexivity.
Defined.

Section LateCalls.
Context {Arg : Type}.

(** X16: once any call of a parallel guard has returned, a call that has
    not yet read the flag returns at its first step without running the
    traversal function. *)
Theorem parallel_guard_late_call_skipped
    (args : list Arg) n (c : config Arg parallel_pc) i ai j aj :
  nsteps (interleave ZParallel_step) n (start parallel_test args) c →
  pool c !! i = Some (ai, parallel_returned) →
  pool c !! j = Some (aj, parallel_test) →
  sched_step ZParallel_step j c =
    Some (Config (mem c) (<[j := (aj, parallel_returned)]> (pool c))).
Proof.
  intros Hn Hi Hj.
  pose proof (nsteps_invariant ZParallel_step parallel_inv parallel_inv_step
                _ _ _ (parallel_inv_start args) Hn) as (_ & _ & Hall).
  pose proof (Hall _ _ _ Hi) as Hflag. cbn in Hflag.
  unfold sched_step. rewrite Hj. cbn. rewrite Hflag. reflexivity.
Qed.

(** X17: once any call of a serial guard has returned, a call that has
    not yet got past the swap returns at its next step without running
    the traversal function, whether it was about to read the flag or to
    compare-and-swap it. *)
Theorem serial_guard_late_call_skipped
    (args : list Arg) n (c : config Arg serial_pc) i ai j aj pc :
  nsteps (interleave ZSerial_step) n (start serial_test args) c →
  pool c !! i = Some (ai, serial_returned) →
  pool c !! j = Some (aj, pc) →
  pc = serial_test ∨ pc = serial_cmpxchg →
  sched_step ZSerial_step j c =
    Some (Config (mem c) (<[j := (aj, serial_returned)]> (pool c))).
Proof.
  intros Hn Hi Hj Hpc.
  pose proof (nsteps_invariant ZSerial_step serial_inv serial_inv_step
                _ _ _ (serial_inv_start args) Hn) as Hinv.
  unfold serial_inv in Hinv.
  assert (Hflag : the_flag (mem c) = true).
  { destruct (the_flag (mem c)); [reflexivity|].
    destruct Hinv as [_ Hall]. destruct (Hall _ _ _ Hi); discriminate. }
  unfold sched_step. rewrite Hj.
  destruct c as [[f ex] p]. cbn in *. subst f.
  destruct Hpc as [-> | ->]; reflexivity.
Qed.

End LateCalls.

Lemma parallel_guard_late_call_skipped_witness :
  let c := run ZParallel_step (take 4 one_after_another)
               (start parallel_test three_callers) in
  sched_step ZParallel_step 1 c =
    Some (Config (mem c) (<[1%nat := (20, parallel_returned)]> (pool c))).
Proof.
  apply (parallel_guard_late_call_skipped three_callers 4 _ 0%nat 10 1%nat 20).
  - apply (enabled_nsteps ZParallel_step (take 4 one_after_another)).
    reflexivity.
  - reflexivity.
  - reflexivity.
Defined.

Lemma serial_guard_late_call_skipped_witness :
  let c := run ZSerial_step [0; 1; 0; 0]%nat
               (start serial_test three_callers) in
  sched_step ZSerial_step 1 c =
    Some (Config (mem c) (<[1%nat := (20, serial_returned)]> (pool c))).
Proof.
  apply (serial_guard_late_call_skipped three_callers 4 _ 0%nat 10 1%nat 20
           serial_cmpxchg).
  - apply (enabled_nsteps ZSerial_step [0; 1; 0; 0]%nat). reflexivity.
  - reflexivity.
  - reflexivity.
  - right. reflexivity.
Defined.

Section Phases.
Context {Arg PC : Type}.
Variable thread_step : nat → Arg → PC → shared Arg → option (PC * shared Arg).

Lemma run_app (s1 s2 : list nat) (c : config Arg PC) :
  run thread_step (s1 ++ s2) c = run thread_step s2 (run thread_step s1 c).
Proof.
  revert c. induction s1 as [|tid s1 IH]; intros c; cbn; [reflexivity|].
  apply IH.
Qed.

Lemma enabled_app (s1 s2 : list nat) (c : config Arg PC) :
  enabled thread_step s1 c = true →
  enabled thread_step s2 (run thread_step s1 c) = true →
  enabled thread_step (s1 ++ s2) c = true.
Proof.
  revert c. induction s1 as [|tid s1 IH]; intros c H1 H2; cbn in *;
    [exact H2|].
  destruct (sched_step thread_step tid c) as [c'|]; [|discriminate H1].
  apply IH; assumption.
Qed.

(** One round in which the threads behind [done], all at [p], each take
    the same kind of step. *)
Lemma run_phase (p p' : PC) (upd : nat → Arg → shared Arg → shared Arg)
    (P : shared Arg → Prop) :
  (∀ tid a m, P m → thread_step tid a p m = Some (p', upd tid a m)) →
  (∀ tid a m, P m → P (upd tid a m)) →
  ∀ (rest : list Arg) (done : list (Arg * PC)) (m : shared Arg),
    P m →
    run thread_step (seq (length done) (length rest))
        (Config m (done ++ ((λ a, (a, p)) <$> rest))) =
      Config (phase_mem upd (length done) rest m)
             (done ++ ((λ a, (a, p')) <$> rest)) ∧
    enabled thread_step (seq (length done) (length rest))
        (Config m (done ++ ((λ a, (a, p)) <$> rest))) = true ∧
    P (phase_mem upd (length done) rest m).
Proof.
  intros Hstep HP.
  induction rest as [|a rest IH]; intros done m Hm; cbn.
  - auto.
  - unfold sched_step. cbn [pool mem].
    rewrite (list_lookup_middle done _ (a, p) (length done) eq_refl).
    rewrite (Hstep _ a m Hm).
    rewrite insert_app_r_alt by lia. rewrite Nat.sub_diag. cbn.
    specialize (IH (done ++ [(a, p')]) (upd (length done) a m)
                   (HP _ a m Hm)).
    rewrite length_app in IH. cbn in IH.
    rewrite Nat.add_1_r, <- !app_assoc in IH. cbn in IH. exact IH.
Qed.

End Phases.

Section RoundRobin.
Context {Arg : Type}.
Implicit Types (args : list Arg) (m : shared Arg).

Lemma phase_mem_same k args m : phase_mem (λ _ _ m', m') k args m = m.
Proof. revert k. induction args as [|a args IH]; intros k; cbn; auto. Qed.

Lemma phase_mem_call k args m :
  phase_mem (λ tid a m', Shared (the_flag m') (executions m' ++ [(tid, a)]))
            k args m =
    Shared (the_flag m) (executions m ++ zip (seq k (length args)) args).
Proof.
  revert k m. induction args as [|a args IH]; intros k m; cbn.
  - rewrite app_nil_r. destruct m; reflexivity.
  - rewrite IH. cbn. rewrite <- app_assoc. reflexivity.
Qed.

Lemma phase_mem_set_flagged k args m :
  the_flag m = true →
  phase_mem (λ _ _ m', Shared true (executions m')) k args m = m.
Proof.
  revert k. induction args as [|a args IH]; intros k Hf; cbn; [reflexivity|].
  destruct m as [f ex]. cbn in *. subst f. apply IH. reflexivity.
Qed.

Lemma phase_mem_set k args m :
  args ≠ [] →
  phase_mem (λ _ _ m', Shared true (executions m')) k args m =
    Shared true (executions m).
Proof.
  intros Hne. destruct args as [|a args]; [contradiction|]. cbn.
  apply phase_mem_set_flagged. reflexivity.
Qed.

(** X18: the flag of a parallel guard gives no mutual exclusion.  When
    [T >= 1] threads call the guard and take turns, one step each, every
    one of them reads the flag before any has set it, and the traversal
    function runs [T] times, once for each caller with its own arguments,
    before every call has returned. *)
Theorem parallel_guard_all_overlap args :
  args ≠ [] →
  let c := run ZParallel_step (round_robin (length args) 4)
               (start parallel_test args) in
  nsteps (interleave ZParallel_step) (4 * length args)
         (start parallel_test args) c ∧
  parallel_finished c ∧
  executions (mem c) = zip (seq 0 (length args)) args ∧
  length (executions (mem c)) = length args.
Proof.
  intros Hne.
  set (T := length args).
  assert (Hrr : round_robin T 4 = seq 0 T ++ seq 0 T ++ seq 0 T ++ seq 0 T).
  { unfold round_robin. cbn. rewrite app_nil_r. reflexivity. }
  (* the four rounds *)
  destruct (run_phase ZParallel_step parallel_test parallel_call
              (λ _ _ m, m) (λ m, the_flag m = false)
              ltac:(intros tid a m Hm; cbn; rewrite Hm; reflexivity)
              ltac:(auto) args [] (Shared false []) eq_refl)
    as (R1 & E1 & _).
  rewrite phase_mem_same in R1.
  destruct (run_phase ZParallel_step parallel_call parallel_retest
              (λ tid a m, Shared (the_flag m) (executions m ++ [(tid, a)]))
              (λ m, the_flag m = false)
              ltac:(intros tid a m Hm; reflexivity)
              ltac:(intros tid a m Hm; exact Hm) args [] (Shared false [])
              eq_refl)
    as (R2 & E2 & _).
  rewrite phase_mem_call in R2. cbn [the_flag executions app length] in R2.
  destruct (run_phase ZParallel_step parallel_retest parallel_set
              (λ _ _ m, m) (λ m, the_flag m = false)
              ltac:(intros tid a m Hm; cbn; rewrite Hm; reflexivity)
              ltac:(auto) args [] (Shared false (zip (seq 0 T) args)) eq_refl)
    as (R3 & E3 & _).
  rewrite phase_mem_same in R3.
  destruct (run_phase ZParallel_step parallel_set parallel_returned
              (λ _ _ m, Shared true (executions m)) (λ _, True)
              ltac:(intros tid a m _; reflexivity)
              ltac:(auto) args [] (Shared false (zip (seq 0 T) args)) I)
    as (R4 & E4 & _).
  rewrite (phase_mem_set _ _ _ Hne) in R4. cbn [executions] in R4.
  cbn [length app] in R1, R2, R3, R4, E1, E2, E3, E4. fold T in R1, R2, R3, R4, E1, E2, E3, E4.
  assert (Hrun : run ZParallel_step (round_robin T 4)
                     (start parallel_test args) =
                 Config (Shared true (zip (seq 0 T) args))
                        ((λ a, (a, parallel_returned)) <$> args)).
  { rewrite Hrr, !run_app. unfold start. rewrite R1, R2, R3, R4. reflexivity. }
  assert (Hen : enabled ZParallel_step (round_robin T 4)
                        (start parallel_test args) = true).
  { rewrite Hrr. unfold start.
    apply enabled_app; [exact E1 | rewrite R1].
    apply enabled_app; [exact E2 | rewrite R2].
    apply enabled_app; [exact E3 | rewrite R3]. exact E4. }
  cbv zeta. split; [|rewrite Hrun; cbn; split; [|split]].
  - replace (4 * T)%nat with (length (round_robin T 4)).
    + apply enabled_nsteps, Hen.
    + rewrite Hrr, !length_app, length_seq. lia.
  - unfold parallel_finished. cbn. apply Forall_fmap, Forall_forall.
    intros a _. reflexivity.
  - reflexivity.
  - rewrite length_zip_with, length_seq. fold T. lia.
Qed.

End RoundRobin.

Lemma parallel_guard_all_overlap_witness :
  let c := run ZParallel_step (round_robin (length three_callers) 4)
               (start parallel_test three_callers) in
  nsteps (interleave ZParallel_step) (4 * length three_callers)
         (start parallel_test three_callers) c ∧
  parallel_finished c ∧
  executions (mem c) = zip (seq 0 (length three_callers)) three_callers ∧
  length (executions (mem c)) = length three_callers.
Proof. apply (parallel_guard_all_overlap three_callers). discriminate. Defined.

(* ===================================================================== *)
(** * The two templates side by side, and the calls of the strong pass *)
(* ===================================================================== *)

Section TemplatesAlone.
Context {Member : Type} `{EqDecision Member}.

(** X19: called by one thread at a time, a serial and a parallel guard do
    the same: for a traversal function that only makes collaborator
    calls, both leave the iterator in the same state, having run the
    function exactly if the flag was unset and with the flag set. *)
Theorem serial_and_parallel_agree_alone (g : Member)
    (F : OopClosure → M Member unit)
    (F' : BoolObjectClosure → OopClosure → M Member unit)
    (is_alive : BoolObjectClosure) (cl : OopClosure)
    (cs cs' : list collaborator_call) (it : iterator Member) :
  makes_calls (F cl) cs →
  makes_calls (F' is_alive cl) cs' →
  exec (ZSerialOopsDo_oops_do g F cl) it
    = exec (ZParallelOopsDo_oops_do g F cl) it ∧
  exec (ZSerialUnlinkOrOopsDo_unlink_or_oops_do g F' is_alive cl) it
    = exec (ZParallelUnlinkOrOopsDo_unlink_or_oops_do g F' is_alive cl) it ∧
  called_by (ZSerialOopsDo_oops_do g F cl) it
    = (if flag it g then [] else cs) ∧
  flag (exec (ZSerialOopsDo_oops_do g F cl) it) g = true.
Proof.
  intros HF HF'.
  rewrite (ZSerialOopsDo_oops_do_exec g F cl cs it HF).
  rewrite (ZParallelOopsDo_oops_do_exec g F cl cs it HF).
  rewrite (ZSerialUnlinkOrOopsDo_exec g F' is_alive cl cs' it HF').
  rewrite (ZParallelUnlinkOrOopsDo_exec g F' is_alive cl cs' it HF').
  split; [reflexivity|]. split; [reflexivity|]. split.
  - apply called_by_called.
    rewrite (ZSerialOopsDo_oops_do_exec g F cl cs it HF). reflexivity.
  - rewrite guarded_flag. destruct (decide (g = g)); [reflexivity|contradiction].
Qed.

End TemplatesAlone.

Lemma serial_and_parallel_agree_alone_witness :
  exec (ZSerialOopsDo_oops_do ZRootsIterator._threads
          ZRootsIterator.do_threads 7) fresh
    = exec threads_guard_call fresh.
Proof.
  apply (serial_and_parallel_agree_alone ZRootsIterator._threads
           ZRootsIterator.do_threads
           (λ is_alive cl, invoke (TRACE_WEAK_OOPS_DO is_alive cl))
           AlwaysTrueClosure 7
           [Threads_possibly_parallel_oops_do true 7 None]
           [TRACE_WEAK_OOPS_DO AlwaysTrueClosure 7] fresh).
  - intros it. reflexivity.
  - intros it. reflexivity.
Defined.

Section StrongPassCalls.
Import ZRootsIterator.
Variable globals : ZGlobals.
Variable kind : member → guard_kind.

(** X20: the collaborator calls of a call of [ZRootsIterator::oops_do]
    are, in the order of the guards gone to, those of the traversal
    functions whose guard was unclaimed.  On a fresh iterator these are
    the nine strong traversals with the visitor, followed, when
    [ZWeakRoots] is off, by the weak JNI handles, JVMTI weak export and
    trace (the last two with the always-true predicate) and the string
    table, and, when it is on and asked for, by JVMTI weak export. *)
Theorem ZRootsIterator_oops_do_calls
    (cl : OopClosure) (v : bool) (it : iterator member) :
  called_by (oops_do globals kind cl v) it =
    concat ((λ g, if flag it g then [] else calls_of g cl)
              <$> dispatch_list globals v) ∧
  called_by (oops_do globals kind cl v) fresh =
    [Universe_oops_do cl; JNIHandles_oops_do cl;
     ObjectSynchronizer_oops_do cl; Management_oops_do cl;
     JvmtiExport_oops_do cl; SystemDictionary_oops_do cl;
     ClassLoaderDataGraph_cld_do cl;
     Threads_possibly_parallel_oops_do true cl None;
     ZNMethodTable_oops_do cl] ++
    (if negb (ZWeakRoots globals) then
       [JNIHandles_weak_oops_do_1 cl;
        JvmtiExport_weak_oops_do AlwaysTrueClosure cl;
        TRACE_WEAK_OOPS_DO AlwaysTrueClosure cl;
        StringTable_possibly_parallel_oops_do cl]
     else if v then [JvmtiExport_weak_oops_do AlwaysTrueClosure cl]
     else []).
Proof.
  split; [apply oops_do_called|].
  rewrite oops_do_called. unfold dispatch_list.
  destruct (ZWeakRoots globals), v; reflexivity.
Qed.

End StrongPassCalls.
